(** * better-all: the dependency-aware task executor of [src/lib/index.ts]

    A shallow embedding of [executeTasksInternal] and of its two entry
    points [all] and [allSettled], followed by the properties the
    specification states about them.

    The closure variables of [executeTasksInternal] ([results], [errors],
    [resolvers], [returnValue], [waitingFor]) become the fields of one
    record that every helper takes and returns.  Promises are cells of a
    heap indexed by allocation order; user task bodies are resumptions
    whose only interactions with the executor are the property access
    [this.$.dep] and [await]. *)

From Stdlib Require Import ZArith.
From stdpp Require Import gmap strings list fin_maps.

(** ** JavaScript values *)

(** [any] in the source.  [VError msg] is [new Error(msg)]: the only error
    objects the executor itself builds are plain [Error]s, which carry a
    message and nothing else.  [VRef a] stands for any other object that
    is not a function and [VFunction a] for a function; both are compared
    by identity (their address) and are ordinary objects, with plain
    writable properties.  [VFulfilled]/[VRejected] are the two settlement
    descriptor objects written by the settle-all mode. *)
Inductive value :=
| VUndefined
| VBool (b : bool)
| VNum (n : Z)
| VStr (s : string)
| VError (message : string)
| VRef (addr : nat)
| VFunction (addr : nat)
| VFulfilled (v : value)      (* { status: 'fulfilled', value: v } *)
| VRejected (reason : value). (* { status: 'rejected', reason } *)

(** [typeof v === 'object' || typeof v === 'function'], for the values
    above (none of them is [null]). *)
Definition is_object (v : value) : bool :=
  match v with
  | VError _ | VRef _ | VFunction _ | VFulfilled _ | VRejected _ => true
  | VUndefined | VBool _ | VNum _ | VStr _ => false
  end.

(** [typeof v === 'function'] *)
Definition is_callable (v : value) : bool :=
  match v with
  | VFunction _ => true
  | _ => false
  end.

(** ** Plain objects *)

(** An object written as the literal [{}] and from then on only assigned
    to, as [returnValue] is: its own properties, and its prototype once
    an assignment has replaced it ([None]: still [Object.prototype]). *)
Record js_object := mkObject {
  own : gmap string value;
  proto : option value
}.

(** [{}] *)
Definition empty_object : js_object := mkObject ∅ None.

(** [obj[key] = v].  Any key but [__proto__] becomes an own property, or
    updates it.  [__proto__] is no own property of such an object: the
    assignment reaches the accessor inherited from [Object.prototype],
    whose setter makes [v] the prototype of [obj] when [v] is an object
    and does nothing otherwise.  Either way no own property appears. *)
Definition set_property (key : string) (v : value) (obj : js_object)
    : js_object :=
  if decide (key = "__proto__") then
    if is_object v then mkObject (own obj) (Some v) else obj
  else mkObject (<[key := v]> (own obj)) (proto obj).

(** [typeof obj.then === 'function'], the test a promise makes on the
    object it is resolved with.  An own [then] decides.  Without one the
    read goes to the prototype, which holds no callable [then]: it is
    [Object.prototype], a settlement descriptor, or the result of a task,
    and a result is what [await taskFn.call(...)] yielded, hence no
    thenable. *)
Definition is_thenable (obj : js_object) : bool :=
  match own obj !! "then" with
  | Some v => is_callable v
  | None => false
  end.

(** How a promise (or a task) ends. *)
Inductive outcome :=
| Fulfilled (v : value)
| Rejected (e : value).

Inductive pstate :=
| Pending
| Settled (o : outcome).

(** A promise handed out by [waitForDep].  [target] is the [depName] it
    was created for; the source does not store it, it is kept here so that
    properties can speak about "the waiters of a task". *)
Record future := mkFuture {
  target : string;
  fstate : pstate
}.

(** ** The store: closure state of [executeTasksInternal] *)

(** - [results], [errors]: [Map<keyof T, any>];
    - [resolvers]: the queue of resolve/reject pairs per task; a pair is
      identified by the heap index of the promise it settles;
    - [returnValue]: the plain object built up for the caller, written
      only through [returnValue[name] = ...] with [name] a task name;
    - [waitingFor]: [Map<keyof T, Set<keyof T>>]; a JS [Set] iterates in
      insertion order, which [buildCyclePath] observes, so a set is a
      duplicate-free list in insertion order;
    - [heap]: the promises created so far. *)
Record state := mkState {
  results : gmap string value;
  errors : gmap string value;
  resolvers : gmap string (list nat);
  returnValue : js_object;
  waitingFor : gmap string (list string);
  heap : list future
}.

Definition init_state : state :=
  mkState ∅ ∅ ∅ empty_object ∅ [].

(** [Set.prototype.add] on an insertion-ordered set. *)
Definition set_add (x : string) (s : list string) : list string :=
  if decide (x ∈ s) then s else s ++ [x].

(** ** The task set *)

(** A unit body as a resumption.
    - [Return v] / [Throw e]: the body finishes; [v] is what
      [await taskFn.call(...)] yields, which is never a thenable;
    - [Access dep k]: the synchronous property read [this.$.dep], which
      yields a promise (its heap index) and continues;
    - [Await p k]: [await p], a suspension point; a surrounding
      [try]/[catch] is the case analysis [k] makes on the outcome;
    - [Pause k]: [await] of some asynchronous operation of the body's own
      (a timer, a request), a suspension point;
    - [Select ready k]: [await] of a combination of promises and own
      operations ([Promise.all], [Promise.race], ...), a suspension
      point: the body goes on with [k] as soon as [ready] holds of the
      states of the promises. *)
Inductive code :=
| Return (v : value)
| Throw (e : value)
| Access (dep : string) (k : nat → code)
| Await (p : nat) (k : outcome → code)
| Pause (k : code)
| Select (ready : (nat → option pstate) → bool)
         (k : (nat → option pstate) → code).

(** An entry of the task object.  [Function sync body]: [sync] tells a
    plain function (whose [throw] before any suspension escapes
    [taskFn.call] synchronously) from an [async] one (whose [throw] only
    rejects the promise it returned). *)
Inductive entry :=
| NotFunction (v : value)
| Function (sync : bool) (body : code).

(** The task object, as the list of its own enumerable properties in
    [Object.keys] order.  The keys of an object are pairwise distinct;
    the statements below assume it as [NoDup (taskNames tasks)]. *)
Definition task_set := list (string * entry).

Definition taskNames (tasks : task_set) : list string := tasks.*1.

(** [tasks[name]] for an own key. *)
Fixpoint task_lookup (tasks : task_set) (name : string) : option entry :=
  match tasks with
  | [] => None
  | (n, e) :: rest => if decide (n = name) then Some e else task_lookup rest name
  end.

(** The task object is written as an object literal, so its prototype is
    [Object.prototype]; these are the property names it inherits. *)
Definition Object_prototype_keys : list string :=
  [ "constructor"; "hasOwnProperty"; "isPrototypeOf";
    "propertyIsEnumerable"; "toLocaleString"; "toString"; "valueOf";
    "__proto__"; "__defineGetter__"; "__defineSetter__";
    "__lookupGetter__"; "__lookupSetter__" ].

(** [depName in tasks].  The [in] operator walks the prototype chain: it
    holds for the own keys of [tasks] and for the inherited ones. *)
Definition in_tasks (tasks : task_set) (depName : string) : bool :=
  bool_decide (depName ∈ taskNames tasks)
  || bool_decide (depName ∈ Object_prototype_keys).

(** ** Cycle detection *)

Section Graph.
Variable g : gmap string (list string).

(** [waitingFor.get(current)], with [undefined] read as no successor. *)
Definition deps_of (current : string) : list string :=
  default [] (g !! current).

(** The [while (stack.length > 0)] loop of [hasCyclePath].  The stack is
    a list whose head is the top.  [for (const dep of deps)
    stack.push(dep)] leaves the last dependency on top, hence the
    [reverse].  One unit of fuel is one iteration. *)
Fixpoint hasCyclePath_loop (fuel : nat) (to : string)
    (stack : list string) (visited : gset string) : option bool :=
  match fuel with
  | O => None
  | S fuel' =>
      match stack with
      | [] => Some false
      | current :: stack' =>
          if decide (current = to) then Some true
          else if decide (current ∈ visited) then
            hasCyclePath_loop fuel' to stack' visited
          else
            hasCyclePath_loop fuel' to
              (reverse (deps_of current) ++ stack')
              ({[current]} ∪ visited)
      end
  end.

(** Number of edges of the graph: every iteration pops one stack
    element, and at most one element per edge is ever pushed, so this
    fuel is never used up ([hasCyclePath_loop_total] below) and the
    [None] case of [hasCyclePath] does not occur. *)
Definition edge_count : nat :=
  sum_list_with (λ kv, length kv.2) (map_to_list g).

Definition hasCyclePath_fuel : nat := S (S edge_count).

Definition hasCyclePath (from to : string) : bool :=
  match hasCyclePath_loop hasCyclePath_fuel to [from] ∅ with
  | Some b => b
  | None => false
  end.

(** [findPath] of [buildCyclePath].  [path] grows at its end
    ([push]/[pop]); the result is the returned boolean with the final
    [path] and [visited].  [findPath_each] is the [for (const dep of
    deps)] loop, given the recursive call. *)
Definition dfs_result : Type := bool * list string * gset string.

Fixpoint findPath_each (rec : string → list string → gset string → option dfs_result)
    (deps : list string) (path : list string) (visited : gset string)
    : option dfs_result :=
  match deps with
  | [] => Some (false, path, visited)
  | dep :: deps' =>
      match rec dep (path ++ [dep]) visited with
      | None => None
      | Some (true, path', visited') => Some (true, path', visited')
      | Some (false, path', visited') =>
          findPath_each rec deps' (removelast path') visited'
      end
  end.

Fixpoint findPath (fuel : nat) (to : string) (current : string)
    (path : list string) (visited : gset string) : option dfs_result :=
  match fuel with
  | O => None
  | S fuel' =>
      if decide (current = to) then Some (true, path, visited)
      else if decide (current ∈ visited) then Some (false, path, visited)
      else findPath_each (findPath fuel' to) (deps_of current) path
             ({[current]} ∪ visited)
  end.

(** Every nested call marks one more key of the graph, so this fuel is
    never used up ([findPath_total] below). *)
Definition findPath_fuel : nat := S (S (size (dom g))).

(** [path.map(String).join(' → ')] *)
Fixpoint join_arrow (path : list string) : string :=
  match path with
  | [] => EmptyString
  | [x] => x
  | x :: rest => x +:+ " → " +:+ join_arrow rest
  end.

Definition buildCyclePath_path (from to : string) : list string :=
  match findPath findPath_fuel to from [from] ∅ with
  | Some (_, path, _) => path
  | None => [from]
  end.

Definition buildCyclePath (from to : string) : string :=
  join_arrow (buildCyclePath_path from to).
End Graph.

(** ** The dependency handle *)

(** [Promise.resolve(v)], [Promise.reject(e)] and [new Promise(...)]:
    allocate a cell and return its index. *)
Definition new_promise (depName : string) (ps : pstate) (st : state)
    : nat * state :=
  (length (heap st),
   mkState (results st) (errors st) (resolvers st) (returnValue st)
           (waitingFor st) (heap st ++ [mkFuture depName ps])).

(** [if (!waitingFor.has(c)) waitingFor.set(c, new Set());
     waitingFor.get(c)!.add(d)] *)
Definition recorded (g : gmap string (list string)) (c d : string)
    : gmap string (list string) :=
  <[c := set_add d (deps_of g c)]> g.

Definition record_wait (callerTask depName : string) (st : state) : state :=
  mkState (results st) (errors st) (resolvers st) (returnValue st)
          (recorded (waitingFor st) callerTask depName)
          (heap st).

Definition enqueue_resolver (depName : string) (p : nat) (st : state) : state :=
  mkState (results st) (errors st)
          (<[depName := default [] (resolvers st !! depName) ++ [p]]>
             (resolvers st))
          (returnValue st) (waitingFor st) (heap st).

(** The one-character string holding a double quote. *)
Definition dquote : string := String (Ascii.ascii_of_nat 34) EmptyString.

(** [`Unknown task "${String(depName)}"`] *)
Definition unknown_task_message (depName : string) : string :=
  "Unknown task " +:+ dquote +:+ depName +:+ dquote.

(** [`Circular dependency detected: ${callerTask} → ${depName}`] *)
Definition self_dependency_message (callerTask depName : string) : string :=
  "Circular dependency detected: " +:+ callerTask +:+ " → " +:+ depName.

(** [`Circular dependency detected: ${callerTask} → ${cyclePath} → ${callerTask}`] *)
Definition cycle_message (callerTask cyclePath : string) : string :=
  "Circular dependency detected: " +:+ callerTask +:+ " → " +:+ cyclePath
    +:+ " → " +:+ callerTask.

(** [waitForDep(callerTask, depName)]: the promise returned and the new
    store. *)
Definition waitForDep (tasks : task_set) (callerTask depName : string)
    (st : state) : nat * state :=
  if negb (in_tasks tasks depName) then
    new_promise depName
      (Settled (Rejected (VError (unknown_task_message depName)))) st
  else if decide (callerTask = depName) then
    new_promise depName
      (Settled (Rejected (VError (self_dependency_message callerTask depName)))) st
  else if hasCyclePath (waitingFor st) depName callerTask then
    let cyclePath := buildCyclePath (waitingFor st) depName callerTask in
    new_promise depName
      (Settled (Rejected (VError (cycle_message callerTask cyclePath)))) st
  else
    let st := record_wait callerTask depName st in
    match results st !! depName with
    | Some v => new_promise depName (Settled (Fulfilled v)) st
    | None =>
        match errors st !! depName with
        | Some e => new_promise depName (Settled (Rejected e)) st
        | None =>
            let '(p, st) := new_promise depName Pending st in
            (p, enqueue_resolver depName p st)
        end
    end.

(** ** Settlement *)

(** Calling the [resolve] (or [reject]) function of promise [p]: a promise
    settles once, later calls are ignored. *)
Definition settle_promise (o : outcome) (p : nat) (h : list future) : list future :=
  match h !! p with
  | Some (mkFuture d Pending) => <[p := mkFuture d (Settled o)]> h
  | _ => h
  end.

(** [for (const [resolve] of resolvers.get(name)!) resolve(value)] and its
    [reject] twin: the queue is walked front to back. *)
Definition drain (o : outcome) (queue : list nat) (h : list future) : list future :=
  foldl (λ h p, settle_promise o p h) h queue.

Definition notify_waiters (name : string) (o : outcome) (st : state) : list future :=
  match resolvers st !! name with
  | Some queue => drain o queue (heap st)
  | None => heap st
  end.

(** [handleResult(name, value)] *)
Definition handleResult (handleSettled : bool) (name : string) (v : value)
    (st : state) : state :=
  let results' := <[name := v]> (results st) in
  let returnValue' :=
    if handleSettled then set_property name (VFulfilled v) (returnValue st)
    else set_property name v (returnValue st) in
  mkState results' (errors st) (resolvers st) returnValue' (waitingFor st)
          (notify_waiters name (Fulfilled v) st).

(** [handleError(name, err)] *)
Definition handleError (handleSettled : bool) (name : string) (err : value)
    (st : state) : state :=
  let errors' := <[name := err]> (errors st) in
  let returnValue' :=
    if handleSettled then set_property name (VRejected err) (returnValue st)
    else returnValue st in
  mkState (results st) errors' (resolvers st) returnValue' (waitingFor st)
          (notify_waiters name (Rejected err) st).

(** ** The executor *)

(** Where the [async (name) => { ... }] wrapper of a task stands:
    suspended in front of the rest [c] of the body (at an [await] of the
    body, or at the wrapper's own [await taskFn.call(...)] once the body
    is down to [Return]/[Throw]), or finished. *)
Inductive tstatus :=
| Suspended (c : code)
| Finished.

(** The promise [executeTasksInternal] returns.  [CallAdopts obj]: it
    was resolved with [obj], which is a thenable, so it follows [obj]: it
    stays pending until the function [obj.then] settles it, if ever. *)
Inductive call_state :=
| CallPending
| CallResolved (mapping : js_object)
| CallRejected (reason : value)
| CallAdopts (thenable : js_object).

(** The [then] callback of the aggregate answers with [returnValue]: the
    returned promise is resolved with that object, which fulfils it
    unless the object is a thenable. *)
Definition resolve_call (obj : js_object) : call_state :=
  if is_thenable obj then CallAdopts obj else CallResolved obj.

(** The whole run.
    - [status]: the wrappers;
    - [remaining]: the count of elements [Promise.all] /
      [Promise.allSettled] still wait for;
    - [call]: the returned promise;
    - [invoked] and [rejections] are logs kept for the statements only:
      the names whose body [taskFn.call] entered, oldest first, and the
      rejections of wrapper promises in the order they happened. *)
Record sys := mkSys {
  store : state;
  status : gmap string tstatus;
  remaining : nat;
  call : call_state;
  invoked : list string;
  rejections : list (string * value)
}.

Definition with_store (st : state) (s : sys) : sys :=
  mkSys st (status s) (remaining s) (call s) (invoked s) (rejections s).

Definition with_status (name : string) (t : tstatus) (s : sys) : sys :=
  mkSys (store s) (<[name := t]> (status s)) (remaining s) (call s)
        (invoked s) (rejections s).

(** A wrapper promise fulfils.  Both [Promise.all] and
    [Promise.allSettled] count it, and resolve at zero; the [then]
    callback answers with [returnValue]. *)
Definition wrapper_fulfilled (s : sys) : sys :=
  let r := pred (remaining s) in
  let call' :=
    match call s with
    | CallPending =>
        if decide (r = 0) then resolve_call (returnValue (store s))
        else CallPending
    | c => c
    end in
  mkSys (store s) (status s) r call' (invoked s) (rejections s).

(** A wrapper promise rejects (fail-fast only): [Promise.all] rejects with
    that reason unless it has settled already. *)
Definition wrapper_rejected (name : string) (err : value) (s : sys) : sys :=
  let call' :=
    match call s with
    | CallPending => CallRejected err
    | c => c
    end in
  mkSys (store s) (status s) (remaining s) call' (invoked s)
        (rejections s ++ [(name, err)]).

(** The [try] branch reaching [handleResult(name, result)]. *)
Definition succeed (handleSettled : bool) (name : string) (v : value)
    (s : sys) : sys :=
  wrapper_fulfilled
    (with_status name Finished
       (with_store (handleResult handleSettled name v (store s)) s)).

(** The [catch] branch: [handleError(name, err)], then [throw err] unless
    [handleSettled]. *)
Definition fail (handleSettled : bool) (name : string) (err : value)
    (s : sys) : sys :=
  let s := with_status name Finished
             (with_store (handleError handleSettled name err (store s)) s) in
  if handleSettled then wrapper_fulfilled s else wrapper_rejected name err s.

(** Running a body up to its next suspension point: every [this.$.dep] on
    the way goes through [waitForDep] with the task as caller. *)
Fixpoint run_sync (tasks : task_set) (name : string) (c : code) (st : state)
    : code * state :=
  match c with
  | Access dep k =>
      let '(p, st') := waitForDep tasks name dep st in
      run_sync tasks name (k p) st'
  | _ => (c, st)
  end.

Definition resume (tasks : task_set) (name : string) (c : code) (s : sys) : sys :=
  let '(c', st') := run_sync tasks name c (store s) in
  with_status name (Suspended c') (with_store st' s).

(** [`Task "${String(name)}" is not a function`] *)
Definition not_function_message (name : string) : string :=
  "Task " +:+ dquote +:+ name +:+ dquote +:+ " is not a function".

(** One call of the wrapper by [taskNames.map]: it runs until its first
    [await]. *)
Definition launch (tasks : task_set) (handleSettled : bool) (name : string)
    (s : sys) : sys :=
  match task_lookup tasks name with
  | Some (Function sync body) =>
      let s := mkSys (store s) (status s) (remaining s) (call s)
                     (invoked s ++ [name]) (rejections s) in
      let '(c, st') := run_sync tasks name body (store s) in
      match c, sync with
      | Throw e, true => fail handleSettled name e (with_store st' s)
      | _, _ => with_status name (Suspended c) (with_store st' s)
      end
  | _ => fail handleSettled name (VError (not_function_message name)) s
  end.

Definition init_sys (tasks : task_set) : sys :=
  let n := length (taskNames tasks) in
  mkSys init_state ∅ n
        (if decide (n = 0) then resolve_call (returnValue init_state)
         else CallPending) [] [].

(** [executeTasksInternal(tasks, handleSettled)], up to its [return]. *)
Definition executeTasksInternal (tasks : task_set) (handleSettled : bool) : sys :=
  foldl (λ s name, launch tasks handleSettled name s) (init_sys tasks)
        (taskNames tasks).

Definition all (tasks : task_set) : sys := executeTasksInternal tasks false.
Definition allSettled (tasks : task_set) : sys := executeTasksInternal tasks true.

(** ** The event loop *)

(** The wrapper of [name] is resumed, if it can be: an [await] continues
    once its promise has settled, and hands the outcome to the body. *)
Definition step (tasks : task_set) (handleSettled : bool) (name : string)
    (s : sys) : sys :=
  match status s !! name with
  | Some (Suspended c) =>
      match c with
      | Return v => succeed handleSettled name v s
      | Throw e => fail handleSettled name e s
      | Await p k =>
          match heap (store s) !! p with
          | Some (mkFuture _ (Settled o)) => resume tasks name (k o) s
          | _ => s
          end
      | Pause k => resume tasks name k s
      | Select ready k =>
          let view := λ p, fstate <$> heap (store s) !! p in
          if ready view then resume tasks name (k view) s else s
      | Access _ _ => resume tasks name c s
      end
  | _ => s
  end.

(** A schedule names the wrappers in the order the event loop resumes
    them; which order occurs depends on timers and on the host, so the
    statements below hold for every schedule. *)
Definition run (tasks : task_set) (handleSettled : bool)
    (schedule : list string) (s : sys) : sys :=
  foldl (λ s name, step tasks handleSettled name s) s schedule.

(** ** Small programs used as concrete inputs *)

Definition rethrow (k : value → code) (o : outcome) : code :=
  match o with
  | Fulfilled v => k v
  | Rejected e => Throw e
  end.

(** [await this.$.dep], an error propagating out of the body. *)
Definition await_dep (dep : string) (k : value → code) : code :=
  Access dep (λ p, Await p (rethrow k)).

(** [x + 10], for the small integers the examples below feed it. *)
Definition add10 (v : value) : code :=
  match v with
  | VNum n => Return (VNum (n + 10))
  | _ => Return VUndefined
  end.

(** [{ a() { return 1 }, async b() { await sleep(50); return 2 },
       async c() { return (await this.$.a) + 10 } }] *)
Definition tasks_abc : task_set :=
  [ ("a", Function true (Return (VNum 1)));
    ("b", Function false (Pause (Return (VNum 2))));
    ("c", Function false (await_dep "a" add10)) ].

(** ** The wait graph, as a relation *)

Section GraphSpec.
Variable g : gmap string (list string).

(** A WaitEdge [x → y]: [waitingFor.get(x)] holds [y]. *)
Definition edge (x y : string) : Prop := y ∈ deps_of g x.

Inductive reach : string → string → Prop :=
| reach_refl x : reach x x
| reach_step x y z : edge x y → reach y z → reach x z.

(** No task waits, directly or through others, for itself. *)
Definition acyclic : Prop := ∀ x y, edge x y → ¬ reach y x.

(** Consecutive names of a list are joined by WaitEdges. *)
Fixpoint is_chain (l : list string) : Prop :=
  match l with
  | x :: (y :: _) as rest => edge x y ∧ is_chain rest
  | _ => True
  end.

(** [clean to visited x]: [to] can be reached from [x] along names that a
    search has not marked yet.  Both searches test [current === to]
    before they test the marks, so [to] itself needs no mark test. *)
Inductive clean (to : string) (visited : gset string) : string → Prop :=
| clean_here : clean to visited to
| clean_next x y :
    x ∉ visited → edge x y → clean to visited y → clean to visited x.

(** Edges leaving names that are not marked: what may still be pushed. *)
Definition unvisited_edges (visited : gset string) : nat :=
  sum_list_with (λ kv, if decide (kv.1 ∈ visited) then 0 else length kv.2)
                (map_to_list g).

(** What a finished [findPath] (or its loop over [deps]) guarantees, for
    a search standing at [cur] with [path] built so far.  On success
    [path] was extended by a chain of edges from [cur] to [to]; on
    failure [path] is as before and nothing clean was lost. *)
Definition search_post (to cur : string) (path : list string)
    (V : gset string) (r : dfs_result) : Prop :=
  let '(b, path', V') := r in
  V ⊆ V' ∧
  if b then
    ∃ ext, path' = path ++ ext ∧ is_chain (cur :: ext)
           ∧ last (cur :: ext) = Some to
  else path' = path ∧ ∀ y, clean to V y → clean to V' y.
End GraphSpec.

(** ** Invariants of a run *)

(** The settled state of a task, as [waitForDep] reads it: [results]
    first, then [errors]. *)
Definition stored_outcome (st : state) (name : string) : option outcome :=
  match results st !! name with
  | Some v => Some (Fulfilled v)
  | None =>
      match errors st !! name with
      | Some e => Some (Rejected e)
      | None => None
      end
  end.

(** The state a promise waiting for [name] must be in. *)
Definition expected (st : state) (name : string) : pstate :=
  match stored_outcome st name with
  | Some o => Settled o
  | None => Pending
  end.

(** The messages of the errors [waitForDep] builds itself. *)
Definition circular_prefix : string := "Circular dependency detected: ".

Definition handle_message (depName msg : string) : Prop :=
  msg = unknown_task_message depName ∨ ∃ rest, msg = circular_prefix +:+ rest.

(** What holds of the store whenever control is outside the helpers.
    [launched] lists the tasks whose wrapper has been called. *)
Record store_inv (launched : list string) (st : state) : Prop := {
  inv_disjoint : ∀ n, results st !! n = None ∨ errors st !! n = None;
  inv_wait_dom : ∀ n, is_Some (waitingFor st !! n) → n ∈ launched;
  inv_acyclic : acyclic (waitingFor st);
  inv_queue : ∀ d q p, resolvers st !! d = Some q → p ∈ q →
    heap st !! p = Some (mkFuture d (expected st d));
  inv_pending : ∀ p d, heap st !! p = Some (mkFuture d Pending) →
    ∃ q, resolvers st !! d = Some q ∧ p ∈ q;
  inv_settled : ∀ p d o, heap st !! p = Some (mkFuture d (Settled o)) →
    stored_outcome st d = Some o
    ∨ ∃ msg, o = Rejected (VError msg) ∧ handle_message d msg
}.

(** The settlement descriptor of an outcome. *)
Definition descriptor (o : outcome) : value :=
  match o with
  | Fulfilled v => VFulfilled v
  | Rejected e => VRejected e
  end.

(** The object that the assignments [obj[name] = v], one per entry of
    [entries], make of [{}]. *)
Definition object_of (entries : gmap string value) : js_object :=
  mkObject (delete "__proto__" entries)
           (match entries !! "__proto__" with
            | Some v => if is_object v then Some v else None
            | None => None
            end).

(** What has been assigned to [returnValue] so far, from the two maps. *)
Definition assigned (handleSettled : bool) (st : state) : gmap string value :=
  if handleSettled
  then (VFulfilled <$> results st) ∪ (VRejected <$> errors st)
  else results st.

(** The mapping under construction. *)
Definition expected_returnValue (handleSettled : bool) (st : state)
    : js_object :=
  object_of (assigned handleSettled st).

(** The state of the returned promise, from the log and the counter. *)
Definition expected_call (s : sys) : call_state :=
  match rejections s with
  | (_, e) :: _ => CallRejected e
  | [] =>
      if decide (remaining s = 0) then resolve_call (returnValue (store s))
      else CallPending
  end.

Record sys_inv (tasks : task_set) (handleSettled : bool)
    (launched : list string) (s : sys) : Prop := {
  si_store : store_inv launched (store s);
  si_launched : launched ⊆ taskNames tasks;
  si_status_dom : ∀ n t, status s !! n = Some t → n ∈ launched;
  si_finished : ∀ n,
    status s !! n = Some Finished ↔ is_Some (stored_outcome (store s) n);
  si_return :
    returnValue (store s) = expected_returnValue handleSettled (store s);
  si_remaining :
    remaining s =
      length (taskNames tasks) - size (results (store s))
      - (if handleSettled then size (errors (store s)) else 0);
  si_rejections :
    if handleSettled then rejections s = []
    else ∀ n e, (n, e) ∈ rejections s ↔ errors (store s) !! n = Some e;
  si_call : call s = expected_call s
}.


(** Every task has settled. *)
Definition all_settled (tasks : task_set) (s : sys) : Prop :=
  ∀ n, n ∈ taskNames tasks → status s !! n = Some Finished.

(** Every task has settled fulfilled. *)
Definition all_fulfilled (tasks : task_set) (s : sys) : Prop :=
  ∀ n, n ∈ taskNames tasks → is_Some (results (store s) !! n).


(** [substring_of s t]: [s] occurs in [t]. *)
Fixpoint substring_of (s t : string) : bool :=
  String.prefix s t ||
  match t with
  | EmptyString => false
  | String _ t' => substring_of s t'
  end.

(** [typeof tasks[name] === 'function'] *)
Definition callable (tasks : task_set) (name : string) : bool :=
  match task_lookup tasks name with
  | Some (Function _ _) => true
  | _ => false
  end.

(** The wait graph of a run. *)
Definition wait_graph (s : sys) : gmap string (list string) :=
  waitingFor (store s).


(** The shape the specification gives to the message of a cycle-closing
    access, [caller → … → targetName → caller], read in the most
    permissive way: the message contains such a path somewhere. *)
Definition claimed_cycle_message (caller targetName msg : string) : Prop :=
  ∃ pre mid post,
    msg = pre +:+ join_arrow (caller :: mid ++ [targetName; caller]) +:+ post.

(** [{ async a() { await tick; return await this.$.b },
       async b() { return await this.$.c },
       async c() { return await this.$.a } }]:
    by the time [a] asks for [b], [b] waits for [c] and [c] for [a]. *)
Definition tasks_cycle3 : task_set :=
  [ ("a", Function false (Pause (await_dep "b" Return)));
    ("b", Function false (await_dep "c" Return));
    ("c", Function false (await_dep "a" Return)) ].

(** [{ async a() { return await this.$.toString } }] *)
Definition tasks_inherited : task_set :=
  [ ("a", Function false (await_dep "toString" Return)) ].

(** [{ a: 1, async b() { return 2 } }] *)
Definition tasks_not_function : task_set :=
  [ ("a", NotFunction (VNum 1));
    ("b", Function false (Return (VNum 2))) ].

(** [{ async a() { throw 'boom' }, async b() { return 2 },
       async c() { return (await this.$.a) + 10 } }] *)
Definition tasks_boom : task_set :=
  [ ("a", Function false (Throw (VStr "boom")));
    ("b", Function false (Return (VNum 2)));
    ("c", Function false (await_dep "a" add10)) ].

(** [{ ['__proto__']() { return 1 }, async b() { return 2 } }]: the
    computed key makes [__proto__] an own property of the task object. *)
Definition tasks_proto : task_set :=
  [ ("__proto__", Function true (Return (VNum 1)));
    ("b", Function false (Return (VNum 2))) ].

(** [{ then() { return f } }], with [f] some function. *)
Definition tasks_then : task_set :=
  [ ("then", Function true (Return (VFunction 0))) ].

(** ** Further definitions: progress of a run *)

(** Bodies that [await] every dependency where they read it
    ([await this.$.dep], the pattern of the documentation), never read a
    name inherited from [Object.prototype], and otherwise only return,
    throw or await operations of their own. *)
Inductive tame (tasks : task_set) : code → Prop :=
| tame_Return v : tame tasks (Return v)
| tame_Throw e : tame tasks (Throw e)
| tame_Pause k : tame tasks k → tame tasks (Pause k)
| tame_await dep k :
    (in_tasks tasks dep = true → dep ∈ taskNames tasks) →
    (∀ o, tame tasks (k o)) →
    tame tasks (Access dep (λ p, Await p k)).

Definition tame_tasks (tasks : task_set) : Prop :=
  ∀ name sync body,
    task_lookup tasks name = Some (Function sync body) → tame tasks body.

(** What holds of a suspended tame body: where it waits for a promise
    that is still pending, that promise is for a declared task and the
    wait is recorded as an edge of the wait graph. *)
Definition suspended_ok (tasks : task_set) (st : state) (name : string)
    (c : code) : Prop :=
  match c with
  | Return _ | Throw _ => True
  | Pause k => tame tasks k
  | Await p k =>
      (∀ o, tame tasks (k o))
      ∧ ∃ d ps, heap st !! p = Some (mkFuture d ps)
          ∧ (ps = Pending →
               edge (waitingFor st) name d ∧ d ∈ taskNames tasks)
  | _ => False
  end.

(** How the store moves: promises stay where they are, keep their target
    and, once settled, their outcome; edges stay. *)
Record evolves (st st' : state) : Prop := {
  ev_heap : ∀ p d ps, heap st !! p = Some (mkFuture d ps) →
    ∃ ps', heap st' !! p = Some (mkFuture d ps')
           ∧ (ps = Pending ∨ ps' = ps);
  ev_edge : ∀ x y, edge (waitingFor st) x y → edge (waitingFor st') x y
}.

(** How a body that has come to its end settles its task. *)
Definition ending (c : code) : option outcome :=
  match c with
  | Return v => Some (Fulfilled v)
  | Throw e => Some (Rejected e)
  | _ => None
  end.

(** Every suspended wrapper stands where a tame body can stand. *)
Definition waits_ok (tasks : task_set) (s : sys) : Prop :=
  ∀ n c, status s !! n = Some (Suspended c) →
    suspended_ok tasks (store s) n c.

(** What holds, for tame bodies, once [executeTasksInternal] has
    returned: the invariant of a run, every wrapper called, every
    suspended wrapper in order. *)
Definition live (tasks : task_set) (handleSettled : bool) (s : sys) : Prop :=
  sys_inv tasks handleSettled (taskNames tasks) s
  ∧ (∀ n, n ∈ taskNames tasks → is_Some (status s !! n))
  ∧ waits_ok tasks s.

(** Some continuation of the run settles every task. *)
Definition completable (tasks : task_set) (handleSettled : bool) (s : sys)
    : Prop :=
  ∃ later, all_settled tasks (run tasks handleSettled later s).

(** The number of tasks that have settled. *)
Definition settled_count (st : state) : nat :=
  size (results st) + size (errors st).

(** At most [u] tasks have yet to settle. *)
Definition within (tasks : task_set) (u : nat) (s : sys) : Prop :=
  length (taskNames tasks) ≤ settled_count (store s) + u.

(** The tasks of [V] all wait, directly or through others, for [m], and
    [m] is not one of them. *)
Definition chain_to (s : sys) (V : gset string) (m : string) : Prop :=
  (m ∉ V) ∧ ∀ v, v ∈ V → reach (waitingFor (store s)) v m.

(** ** Further definitions: the searches *)

(** A successful search walked a path that names nothing twice and
    nothing that was marked when it began. *)
Definition simple_post (to cur : string) (path : list string)
    (V : gset string) (r : dfs_result) : Prop :=
  ∀ path' V', r = (true, path', V') →
    ∃ ext, path' = path ++ ext ∧ NoDup (cur :: ext)
           ∧ ∀ x, x ∈ cur :: ext → x = to ∨ x ∉ V.

(** [findCyclePath(from, to)] of [src/unnamed/part_000]: one depth-first
    search from [to] for [from], which returns the path it walked or
    [null].  Its inner [dfs] is [findPath] with [from] as the name
    looked for. *)
Definition findCyclePath (g : gmap string (list string)) (from to : string)
    : option (list string) :=
  match findPath g (findPath_fuel g) from to [to] ∅ with
  | Some (true, path, _) => Some path
  | _ => None
  end.

(** ** Further definitions: [promiseAllWithSettle] *)

(** What [promiseAllWithSettle] ends with: the array it returns, the
    [AggregateError] it throws, or whatever [onRejected] threw. *)
Inductive settle_result :=
| Returned (values : list value)
| AggregateError (errors : list value) (message : string)
| CallbackThrew (e : value).

(** The [for (const promiseResult of settledPromises)] loop.
    [settledPromises] is what [await Promise.allSettled(promises)] gives:
    one outcome per input, in input order.  [onRejected] is given by
    what it does with the result it is handed, named here by its reason:
    [Some e] when it throws [e], [None] when it returns; a callback that
    writes to the result object is not covered.  The result comes with
    the reasons [onRejected] was called with, oldest first. *)
Fixpoint settle_loop (onRejected : value → option value)
    (settledPromises : list outcome)
    (rejectedPromises fulfilledPromises called : list value)
    : list value * settle_result :=
  match settledPromises with
  | [] =>
      (called,
       if decide (0 < length rejectedPromises)
       then AggregateError rejectedPromises "Promise rejection"
       else Returned fulfilledPromises)
  | Rejected reason :: rest =>
      match onRejected reason with
      | Some e => (called ++ [reason], CallbackThrew e)
      | None =>
          settle_loop onRejected rest (rejectedPromises ++ [reason])
            fulfilledPromises (called ++ [reason])
      end
  | Fulfilled v :: rest =>
      settle_loop onRejected rest rejectedPromises
        (fulfilledPromises ++ [v]) called
  end.

Definition promiseAllWithSettle (onRejected : value → option value)
    (settledPromises : list outcome) : list value * settle_result :=
  settle_loop onRejected settledPromises [] [] [].

(** [defaultOnRejected] *)
Definition defaultOnRejected (_ : value) : option value := None.

(** The values, and the reasons, of a list of outcomes. *)
Definition fulfilled_values (l : list outcome) : list value :=
  omap (λ o, match o with Fulfilled v => Some v | Rejected _ => None end) l.

Definition rejected_reasons (l : list outcome) : list value :=
  omap (λ o, match o with Rejected e => Some e | Fulfilled _ => None end) l.

(** Duplicate-freeness of a concrete list of names, by evaluation. *)
Ltac nodup_by_computation :=
  apply (bool_decide_unpack _); vm_compute; exact I.

(** * Facts about the wait graph and the two searches *)

Section GraphFacts.
Variable g : gmap string (list string).

Lemma reach_trans x y z : reach g x y → reach g y z → reach g x z.
Proof.
  induction 1 as [|x y w Hxy _ IH]; [done|].
  intros Hz. eapply reach_step; eauto.
Qed.

Lemma edge_lookup x y :
  edge g x y ↔ ∃ ds, g !! x = Some ds ∧ y ∈ ds.
Proof.
  unfold edge, deps_of. destruct (g !! x) as [ds|]; simpl.
  - split; [eauto|]. by intros (? & [= <-] & ?).
  - split; [by intros ?%elem_of_nil|]. by intros (? & [=] & _).
Qed.

Lemma clean_reach to V x : clean g to V x → reach g x to.
Proof.
  induction 1 as [|x y _ Hxy _ IH]; [constructor|].
  eapply reach_step; eauto.
Qed.

Lemma reach_clean to x : reach g x to → clean g to ∅ x.
Proof.
  induction 1 as [|x y z Hxy _ IH]; [constructor|].
  eapply clean_next; eauto. set_solver.
Qed.

Lemma clean_marked to V x : x ≠ to → x ∈ V → ¬ clean g to V x.
Proof. intros Hne Hin Hc. destruct Hc; done. Qed.

(** Marking one more name [c] loses nothing: what was clean stays clean,
    or a successor of [c] is clean. *)
Lemma clean_visit to V c s :
  c ≠ to → clean g to V s →
  clean g to ({[c]} ∪ V) s ∨ ∃ y, edge g c y ∧ clean g to ({[c]} ∪ V) y.
Proof.
  intros Hc. induction 1 as [|x y Hx Hxy _ IH].
  - left. constructor.
  - destruct IH as [IH|IH]; [|by right].
    destruct (decide (x = c)) as [->|Hne]; [right; eauto|].
    left. eapply clean_next; eauto. set_solver.
Qed.

(** *** [hasCyclePath] *)

Lemma hasCyclePath_loop_sound fuel to stack V :
  hasCyclePath_loop g fuel to stack V = Some true →
  ∃ s, s ∈ stack ∧ reach g s to.
Proof.
  revert stack V. induction fuel as [|fuel IH]; intros stack V; [done|].
  simpl. destruct stack as [|current stack']; [done|].
  destruct (decide (current = to)) as [->|Hne].
  { intros _. exists to. split; [left|constructor]. }
  destruct (decide (current ∈ V)).
  - intros (s & Hs & Hr)%IH. exists s. split; [by right|done].
  - intros (s & Hs & Hr)%IH.
    apply elem_of_app in Hs as [Hs|Hs].
    + exists current. split; [left|].
      rewrite elem_of_reverse in Hs. exact (reach_step g _ _ _ Hs Hr).
    + exists s. split; [by right|done].
Qed.

Lemma hasCyclePath_loop_complete fuel to stack V :
  hasCyclePath_loop g fuel to stack V = Some false →
  ∀ s, s ∈ stack → ¬ clean g to V s.
Proof.
  revert stack V. induction fuel as [|fuel IH]; intros stack V; [done|].
  simpl. destruct stack as [|current stack'].
  { intros _ s Hs. by apply elem_of_nil in Hs. }
  destruct (decide (current = to)) as [->|Hne]; [done|].
  destruct (decide (current ∈ V)) as [Hin|Hnin]; intros Hloop s Hs.
  - apply elem_of_cons in Hs as [->|Hs]; [by apply clean_marked|].
    by apply (IH _ _ Hloop).
  - intros Hclean.
    destruct (clean_visit to V current s Hne Hclean) as [Hc|(y & Hy & Hc)].
    + apply elem_of_cons in Hs as [->|Hs].
      * apply (clean_marked to ({[current]} ∪ V) current Hne); [set_solver|done].
      * apply (IH _ _ Hloop s); [|done]. apply elem_of_app. by right.
    + apply (IH _ _ Hloop y); [|done]. apply elem_of_app. left.
      by rewrite elem_of_reverse.
Qed.

Lemma unvisited_edges_visit V c :
  c ∉ V →
  unvisited_edges g V = length (deps_of g c) + unvisited_edges g ({[c]} ∪ V).
Proof.
  intros Hc. unfold unvisited_edges, deps_of.
  induction g as [|k ds m Hk Hfirst IH] using map_first_key_ind.
  - rewrite lookup_empty, map_to_list_empty. done.
  - rewrite !map_to_list_insert_first_key by done. simpl.
    rewrite IH. rewrite lookup_insert.
    destruct (decide (k = c)) as [->|Hne]; simpl.
    + rewrite Hk. simpl.
      rewrite decide_False by done. rewrite decide_True by set_solver. lia.
    + destruct (decide (k ∈ V)).
      * rewrite decide_True by set_solver. lia.
      * rewrite decide_False by set_solver. lia.
Qed.

Lemma hasCyclePath_loop_terminates fuel to stack V :
  length stack + unvisited_edges g V < fuel →
  is_Some (hasCyclePath_loop g fuel to stack V).
Proof.
  revert stack V. induction fuel as [|fuel IH]; intros stack V Hlt; [lia|].
  simpl. destruct stack as [|current stack']; [by eexists|].
  destruct (decide (current = to)); [by eexists|].
  destruct (decide (current ∈ V)) as [Hin|Hnin].
  - apply IH. simpl in Hlt. lia.
  - apply IH. rewrite (unvisited_edges_visit V current) in Hlt by done.
    rewrite length_app, length_reverse. simpl in Hlt. lia.
Qed.

Lemma unvisited_edges_empty : unvisited_edges g ∅ = edge_count g.
Proof.
  unfold unvisited_edges, edge_count.
  induction (map_to_list g) as [|kv l IH]; [done|]. simpl.
  rewrite decide_False by set_solver. by rewrite IH.
Qed.

(** The search answers, and it answers reachability. *)
Lemma hasCyclePath_loop_total from to :
  ∃ b, hasCyclePath_loop g (hasCyclePath_fuel g) to [from] ∅ = Some b.
Proof.
  apply hasCyclePath_loop_terminates.
  rewrite unvisited_edges_empty. unfold hasCyclePath_fuel. simpl. lia.
Qed.

Lemma hasCyclePath_reach from to :
  hasCyclePath g from to = true ↔ reach g from to.
Proof.
  unfold hasCyclePath.
  destruct (hasCyclePath_loop_total from to) as [b Hb]. rewrite Hb.
  destruct b; split; try done.
  - intros _. apply hasCyclePath_loop_sound in Hb as (s & Hs & Hr).
    by apply list_elem_of_singleton in Hs as ->.
  - intros Hr%reach_clean. exfalso.
    apply (hasCyclePath_loop_complete _ _ _ _ Hb from); [left|done].
Qed.

(** *** [buildCyclePath] *)

Lemma findPath_each_post rec to cur deps path V r :
  (∀ dep path V r, rec dep path V = Some r →
     search_post g to dep path V r ∧ (r.1.1 = false → ¬ clean g to V dep)) →
  (∀ d, d ∈ deps → edge g cur d) →
  findPath_each rec deps path V = Some r →
  search_post g to cur path V r
  ∧ (r.1.1 = false → ∀ d, d ∈ deps → ¬ clean g to V d).
Proof.
  intros Hrec. revert path V.
  induction deps as [|dep deps IH]; intros path V Hdeps; simpl.
  { intros [= <-]. simpl. split; [done|]. by intros _ d ?%elem_of_nil. }
  destruct (rec dep (path ++ [dep]) V) as [[[b path1] V1]|] eqn:Hdep; [|done].
  apply Hrec in Hdep as [Hpost Hno]. simpl in Hpost, Hno.
  destruct Hpost as [HV Hpost]. destruct b.
  - intros [= <-]. simpl. split; [|done]. split; [done|].
    destruct Hpost as (ext & -> & Hchain & Hlast).
    exists (dep :: ext). split; [by rewrite <-app_assoc|].
    split; [|done]. split; [|done]. apply Hdeps. left.
  - destruct Hpost as [-> Hkeep]. rewrite removelast_last.
    intros Hrest. apply IH in Hrest as [Hpost' Hno'].
    2:{ intros d Hd. apply Hdeps. by right. }
    destruct r as [[b path'] V']. simpl in *.
    destruct Hpost' as [HV' Hpost']. split.
    + split; [set_solver|]. destruct b; [done|].
      destruct Hpost' as [-> Hkeep']. split; [done|]. auto.
    + intros -> d [->|Hd]%elem_of_cons; [auto|].
      intros Hc. eapply Hno'; eauto.
Qed.

Lemma findPath_post fuel to cur path V r :
  findPath g fuel to cur path V = Some r →
  search_post g to cur path V r ∧ (r.1.1 = false → ¬ clean g to V cur).
Proof.
  revert cur path V r. induction fuel as [|fuel IH]; intros cur path V r; [done|].
  simpl. destruct (decide (cur = to)) as [->|Hne].
  { intros [= <-]. simpl. split; [|done]. split; [done|].
    exists []. by rewrite app_nil_r. }
  destruct (decide (cur ∈ V)) as [Hin|Hnin].
  { intros [= <-]. simpl. split; [done|]. intros _. by apply clean_marked. }
  intros Heach.
  apply (findPath_each_post _ to cur) in Heach as [Hpost Hno]; [|exact IH|done].
  destruct r as [[b path'] V']. simpl in *. destruct Hpost as [HV Hpost].
  assert (b = false → ∀ y, clean g to V y → clean g to V' y) as Hkeep.
  { intros -> y Hy. destruct Hpost as [_ Hkeep].
    destruct (clean_visit to V cur y Hne Hy) as [?|(d & Hd & Hc)]; [auto|].
    destruct (Hno eq_refl d Hd Hc). }
  split.
  - split; [set_solver|]. destruct b; [done|].
    destruct Hpost as [-> _]. auto.
  - intros -> Hc.
    destruct (clean_visit to V cur cur Hne Hc) as [Hc'|(d & Hd & Hc')].
    + apply (clean_marked to ({[cur]} ∪ V) cur Hne); [set_solver|done].
    + destruct (Hno eq_refl d Hd Hc').
Qed.

Lemma findPath_each_terminates rec deps path V0 V :
  (∀ dep path V, V0 ⊆ V → ∃ r, rec dep path V = Some r ∧ V ⊆ r.2) →
  V0 ⊆ V →
  is_Some (findPath_each rec deps path V).
Proof.
  intros Hrec. revert path V.
  induction deps as [|dep deps IH]; intros path V HV; simpl; [by eexists|].
  destruct (Hrec dep (path ++ [dep]) V HV) as ([[b path1] V1] & -> & HV1).
  destruct b; [by eexists|]. apply IH. simpl in HV1. set_solver.
Qed.

Lemma findPath_terminates fuel to cur path V :
  size (dom g ∖ V) < fuel →
  is_Some (findPath g fuel to cur path V).
Proof.
  revert cur path V. induction fuel as [|fuel IH]; intros cur path V Hlt; [lia|].
  simpl. destruct (decide (cur = to)); [by eexists|].
  destruct (decide (cur ∈ V)) as [Hin|Hnin]; [by eexists|].
  destruct (g !! cur) as [ds|] eqn:Hcur.
  2:{ unfold deps_of. rewrite Hcur. by eexists. }
  apply (findPath_each_terminates _ _ _ ({[cur]} ∪ V)); [|done].
  intros dep path' V' HV'.
  assert (size (dom g ∖ V') < fuel) as Hfuel.
  { assert (size (dom g ∖ V') < size (dom g ∖ V)); [|lia].
    apply subset_size. apply elem_of_dom_2 in Hcur. set_solver. }
  destruct (IH dep path' V' Hfuel) as [r Hr]. exists r. split; [done|].
  apply findPath_post in Hr as [Hpost _]. by destruct r as [[? ?] ?], Hpost.
Qed.

(** The search of [buildCyclePath] answers within its fuel. *)
Lemma findPath_total from to :
  ∃ r, findPath g (findPath_fuel g) to from [from] ∅ = Some r.
Proof.
  apply findPath_terminates. unfold findPath_fuel.
  assert (size (dom g ∖ ∅) ≤ size (dom g)) by (apply subseteq_size; set_solver).
  lia.
Qed.

(** The path in the message is a chain of recorded edges from the target
    back to the caller. *)
Lemma buildCyclePath_path_chain from to :
  reach g from to →
  ∃ ext, buildCyclePath_path g from to = from :: ext
         ∧ is_chain g (from :: ext) ∧ last (from :: ext) = Some to.
Proof.
  intros Hreach. unfold buildCyclePath_path.
  destruct (findPath_total from to) as [r Hr].
  rewrite Hr. apply findPath_post in Hr as [Hpost Hno].
  destruct r as [[b path] V]. simpl in *. destruct b.
  - destruct Hpost as (_ & ext & -> & ?). by exists ext.
  - destruct (Hno eq_refl). by apply reach_clean.
Qed.
End GraphFacts.

(** * Recording a wait *)

Section RecordWait.
Variable g : gmap string (list string).
Variables c d : string.

Lemma elem_of_set_add x y s : x ∈ set_add y s ↔ x ∈ s ∨ x = y.
Proof.
  unfold set_add. destruct (decide (y ∈ s)).
  - split; [auto|]. by intros [?| ->].
  - rewrite elem_of_app, list_elem_of_singleton. done.
Qed.

Lemma edge_recorded x y :
  edge (recorded g c d) x y ↔ edge g x y ∨ (x = c ∧ y = d).
Proof.
  unfold edge, recorded, deps_of at 1.
  destruct (decide (x = c)) as [->|Hne].
  - rewrite lookup_insert_eq. simpl. rewrite elem_of_set_add. naive_solver.
  - rewrite lookup_insert_ne by done. fold (deps_of g x). naive_solver.
Qed.

Lemma reach_recorded x z :
  reach (recorded g c d) x z → reach g x z ∨ (reach g x c ∧ reach g d z).
Proof.
  induction 1 as [|x y z Hxy _ IH]; [left; constructor|].
  apply edge_recorded in Hxy as [Hxy|[-> ->]].
  - destruct IH as [IH|[IH1 IH2]].
    + left. by eapply reach_step.
    + right. split; [|done]. by eapply reach_step.
  - right. split; [constructor|]. destruct IH as [IH|[_ IH]]; done.
Qed.

(** Adding [c → d] when [d] does not reach [c] closes no cycle. *)
Lemma acyclic_recorded :
  acyclic g → ¬ reach g d c → acyclic (recorded g c d).
Proof.
  intros Hacyc Hdc x y Hxy Hyx.
  apply edge_recorded in Hxy as [Hxy|[-> ->]];
    apply reach_recorded in Hyx as [Hyx|[Hyc Hdx]].
  - by apply (Hacyc x y).
  - apply Hdc. eapply reach_trans; [exact Hdx|]. by eapply reach_step.
  - done.
  - done.
Qed.
End RecordWait.

(** * The promise heap *)

Lemma settle_promise_lookup o p h i :
  settle_promise o p h !! i =
    match h !! i with
    | Some (mkFuture d Pending) =>
        if decide (i = p) then Some (mkFuture d (Settled o))
        else Some (mkFuture d Pending)
    | x => x
    end.
Proof.
  unfold settle_promise.
  destruct (decide (i = p)) as [->|Hne].
  - destruct (h !! p) as [[d [|o']]|] eqn:Hp; rewrite ?Hp; try done.
    apply list_lookup_insert_eq. by eapply lookup_lt_Some.
  - destruct (h !! p) as [[d [|o']]|] eqn:Hp.
    + rewrite list_lookup_insert_ne by done. by destruct (h !! i) as [[? [|?]]|].
    + by destruct (h !! i) as [[? [|?]]|].
    + by destruct (h !! i) as [[? [|?]]|].
Qed.

Lemma drain_lookup o q h i :
  drain o q h !! i =
    match h !! i with
    | Some (mkFuture d Pending) =>
        if decide (i ∈ q) then Some (mkFuture d (Settled o))
        else Some (mkFuture d Pending)
    | x => x
    end.
Proof.
  unfold drain. revert h. induction q as [|p q IH]; intros h; simpl.
  { destruct (h !! i) as [[d [|o']]|]; try done.
    all: rewrite decide_False; [done|]; by intros ?%elem_of_nil. }
  rewrite IH, settle_promise_lookup.
  destruct (h !! i) as [[d [|o']]|]; try done.
  destruct (decide (i = p)) as [->|Hne].
  - rewrite (decide_True (P := p ∈ p :: q)) by left. done.
  - destruct (decide (i ∈ q)).
    + rewrite decide_True by (by right). done.
    + rewrite decide_False; [done|]. by intros [?|?]%elem_of_cons.
Qed.

Lemma new_promise_lookup d ps st i :
  heap (new_promise d ps st).2 !! i =
    if decide (i = length (heap st)) then Some (mkFuture d ps)
    else heap st !! i.
Proof.
  simpl. destruct (decide (i = length (heap st))) as [->|Hne].
  - by rewrite lookup_app_r, Nat.sub_diag.
  - destruct (decide (i < length (heap st))).
    + by rewrite lookup_app_l.
    + rewrite !lookup_ge_None_2; [done|lia|].
      rewrite length_app. simpl. lia.
Qed.

Lemma heap_snoc_lookup (h : list future) f i :
  (h ++ [f]) !! i = if decide (i = length h) then Some f else h !! i.
Proof.
  destruct (decide (i = length h)) as [->|Hne].
  - by rewrite lookup_app_r, Nat.sub_diag.
  - destruct (decide (i < length h)).
    + by rewrite lookup_app_l.
    + rewrite !lookup_ge_None_2; [done|lia|].
      rewrite length_app. simpl. lia.
Qed.

Lemma heap_lookup_fresh st f : heap st !! length (heap st) = Some f → False.
Proof. intros H%lookup_lt_Some. lia. Qed.

(** * The stored outcome *)

Lemma stored_outcome_None st n :
  stored_outcome st n = None ↔ results st !! n = None ∧ errors st !! n = None.
Proof.
  unfold stored_outcome.
  destruct (results st !! n), (errors st !! n); naive_solver.
Qed.

Lemma stored_outcome_handleResult hs name v st n :
  stored_outcome (handleResult hs name v st) n =
    if decide (n = name) then Some (Fulfilled v) else stored_outcome st n.
Proof.
  unfold stored_outcome. simpl. destruct (decide (n = name)) as [->|Hne].
  - by rewrite lookup_insert_eq.
  - by rewrite lookup_insert_ne.
Qed.

Lemma stored_outcome_handleError hs name e st n :
  results st !! name = None →
  stored_outcome (handleError hs name e st) n =
    if decide (n = name) then Some (Rejected e) else stored_outcome st n.
Proof.
  intros Hres. unfold stored_outcome. simpl.
  destruct (decide (n = name)) as [->|Hne].
  - by rewrite Hres, lookup_insert_eq.
  - by rewrite lookup_insert_ne.
Qed.

(** * The store invariant is kept by every helper *)

Lemma store_inv_mono L L' st : L ⊆ L' → store_inv L st → store_inv L' st.
Proof. intros HL [inv_disjoint inv_wait_dom inv_acyclic inv_queue inv_pending inv_settled]. split; auto. Qed.

Lemma expected_Pending st d : expected st d = Pending ↔ stored_outcome st d = None.
Proof. unfold expected. destruct (stored_outcome st d); naive_solver. Qed.

Lemma store_inv_new_settled L d o st :
  store_inv L st →
  (stored_outcome st d = Some o
   ∨ ∃ msg, o = Rejected (VError msg) ∧ handle_message d msg) →
  store_inv L (new_promise d (Settled o) st).2.
Proof.
  intros [inv_disjoint inv_wait_dom inv_acyclic inv_queue inv_pending inv_settled] Ho. split; try done.
  - intros d' q p Hq Hp. rewrite new_promise_lookup.
    specialize (inv_queue _ _ _ Hq Hp).
    rewrite decide_False; [done|]. intros ->. by eapply heap_lookup_fresh.
  - intros p d'. rewrite new_promise_lookup. case_decide; [done|]. auto.
  - intros p d' o'. rewrite new_promise_lookup. case_decide.
    + by intros [= <- <-].
    + apply inv_settled.
Qed.

Lemma store_inv_record_wait L c d st :
  store_inv L st → c ∈ L → ¬ reach (waitingFor st) d c →
  store_inv L (record_wait c d st).
Proof.
  intros [inv_disjoint inv_wait_dom inv_acyclic inv_queue inv_pending inv_settled] Hc Hdc. split; try done; simpl.
  - intros n [ds Hn]. destruct (decide (n = c)) as [->|Hne]; [done|].
    unfold recorded in Hn. rewrite lookup_insert_ne in Hn by done. eauto.
  - by apply acyclic_recorded.
Qed.

Lemma store_inv_enqueue L d st :
  store_inv L st → stored_outcome st d = None →
  store_inv L (enqueue_resolver d (length (heap st)) (new_promise d Pending st).2).
Proof.
  intros [inv_disjoint inv_wait_dom inv_acyclic inv_queue inv_pending inv_settled] Hd. split; try done.
  - intros d' q p. change (expected _ d') with (expected st d'). simpl.
    rewrite heap_snoc_lookup.
    destruct (decide (d' = d)) as [->|Hne].
    + rewrite lookup_insert_eq. intros [= <-] [Hp|Hp]%elem_of_app.
      * destruct (resolvers st !! d) as [q|] eqn:Hq; simpl in Hp;
          [|by apply elem_of_nil in Hp].
        specialize (inv_queue _ _ _ Hq Hp).
        rewrite decide_False; [done|]. intros ->. by eapply heap_lookup_fresh.
      * apply list_elem_of_singleton in Hp as ->.
        rewrite decide_True by done. by apply expected_Pending in Hd as ->.
    + rewrite lookup_insert_ne by done. intros Hq Hp.
      specialize (inv_queue _ _ _ Hq Hp).
      rewrite decide_False; [done|]. intros ->. by eapply heap_lookup_fresh.
  - intros p d'. simpl. rewrite heap_snoc_lookup. case_decide as Hp.
    + intros [= <-]. rewrite lookup_insert_eq. eexists. split; [done|].
      apply elem_of_app. right. by apply list_elem_of_singleton.
    + intros (q & Hq & Hin)%inv_pending.
      destruct (decide (d' = d)) as [->|Hne].
      * rewrite lookup_insert_eq, Hq. eexists. split; [done|].
        apply elem_of_app. by left.
      * rewrite lookup_insert_ne by done. eauto.
  - intros p d' o. change (stored_outcome _ d') with (stored_outcome st d').
    simpl. rewrite heap_snoc_lookup. case_decide; [done|]. apply inv_settled.
Qed.

Lemma circular_handle_message d rest :
  handle_message d (circular_prefix +:+ rest).
Proof. right. by exists rest. Qed.

Lemma self_dependency_message_eq c d :
  self_dependency_message c d = circular_prefix +:+ (c +:+ " → " +:+ d).
Proof. done. Qed.

Lemma cycle_message_eq c path :
  cycle_message c path =
    circular_prefix +:+ (c +:+ " → " +:+ path +:+ " → " +:+ c).
Proof. done. Qed.

Lemma store_inv_waitForDep L tasks c d st :
  store_inv L st → c ∈ L → store_inv L (waitForDep tasks c d st).2.
Proof.
  intros Hinv Hc. unfold waitForDep.
  destruct (negb (in_tasks tasks d)).
  { apply store_inv_new_settled; [done|]. right. eexists. split; [done|]. by left. }
  destruct (decide (c = d)).
  { apply store_inv_new_settled; [done|]. right. eexists. split; [done|].
    rewrite self_dependency_message_eq. apply circular_handle_message. }
  destruct (hasCyclePath (waitingFor st) d c) eqn:Hcyc.
  { apply store_inv_new_settled; [done|]. right. eexists. split; [done|].
    rewrite cycle_message_eq. apply circular_handle_message. }
  assert (store_inv L (record_wait c d st)) as Hinv'.
  { apply store_inv_record_wait; [done..|].
    intros Hr%hasCyclePath_reach. congruence. }
  set (st' := record_wait c d st) in *.
  destruct (results st' !! d) as [v|] eqn:Hres.
  { apply store_inv_new_settled; [done|]. left. unfold stored_outcome. by rewrite Hres. }
  destruct (errors st' !! d) as [e|] eqn:Herr.
  { apply store_inv_new_settled; [done|]. left.
    unfold stored_outcome. by rewrite Hres, Herr. }
  apply (store_inv_enqueue L d st' Hinv').
  unfold stored_outcome. by rewrite Hres, Herr.
Qed.

Lemma store_inv_run_sync L tasks name c st :
  store_inv L st → name ∈ L → store_inv L (run_sync tasks name c st).2.
Proof.
  intros Hinv Hname. revert st Hinv.
  induction c as [| |dep k IH| | |]; intros st Hinv; simpl; try done.
  destruct (waitForDep tasks name dep st) as [p st'] eqn:Hw.
  apply IH. change st' with (p, st').2. rewrite <-Hw.
  by apply store_inv_waitForDep.
Qed.

(** Settling [name] settles exactly the pending promises that wait for it. *)
Lemma notify_waiters_lookup L name o st i :
  store_inv L st →
  notify_waiters name o st !! i =
    match heap st !! i with
    | Some (mkFuture d Pending) =>
        if decide (d = name) then Some (mkFuture d (Settled o))
        else Some (mkFuture d Pending)
    | x => x
    end.
Proof.
  intros [inv_disjoint inv_wait_dom inv_acyclic inv_queue inv_pending inv_settled]. unfold notify_waiters.
  destruct (heap st !! i) as [[d [|o']]|] eqn:Hi.
  - destruct (inv_pending _ _ Hi) as (q & Hq & Hin).
    destruct (decide (d = name)) as [->|Hne].
    + rewrite Hq, drain_lookup, Hi. by rewrite decide_True.
    + destruct (resolvers st !! name) as [qn|] eqn:Hqn; [|done].
      rewrite drain_lookup, Hi. rewrite decide_False; [done|].
      intros Hin'. specialize (inv_queue _ _ _ Hqn Hin'). congruence.
  - destruct (resolvers st !! name); [|done]. by rewrite drain_lookup, Hi.
  - destruct (resolvers st !! name); [|done]. by rewrite drain_lookup, Hi.
Qed.

Section Settle.
Variables (L : list string) (name : string) (o : outcome) (st st' : state).
Hypothesis Hinv : store_inv L st.
Hypothesis Hfresh : stored_outcome st name = None.
Hypothesis Hstored : ∀ n,
  stored_outcome st' n = if decide (n = name) then Some o else stored_outcome st n.
Hypothesis Hdisjoint : ∀ n, results st' !! n = None ∨ errors st' !! n = None.
Hypothesis Hwait : waitingFor st' = waitingFor st.
Hypothesis Hresolvers : resolvers st' = resolvers st.
Hypothesis Hheap : heap st' = notify_waiters name o st.

(** Common part of [handleResult] and [handleError]. *)
Lemma store_inv_settle : store_inv L st'.
Proof using All.
  pose proof Hinv as [inv_disjoint inv_wait_dom inv_acyclic inv_queue inv_pending inv_settled].
  split; rewrite ?Hwait, ?Hresolvers, ?Hheap; try done.
  - intros d q p Hq Hp. specialize (inv_queue _ _ _ Hq Hp).
    rewrite (notify_waiters_lookup L) by done. rewrite inv_queue.
    unfold expected. rewrite Hstored.
    destruct (decide (d = name)) as [->|Hne].
    + by rewrite Hfresh.
    + by destruct (stored_outcome st d).
  - intros p d. rewrite (notify_waiters_lookup L) by done.
    destruct (heap st !! p) as [[d' [|o']]|] eqn:Hp; [|done..].
    case_decide; [done|]. intros [= <-]. eauto.
  - intros p d o'. rewrite (notify_waiters_lookup L) by done.
    destruct (heap st !! p) as [[d' [|o'']]|] eqn:Hp; [| |done].
    + case_decide as Hd; [|done]. intros [= <- <-]. left.
      rewrite Hstored. by rewrite decide_True.
    + intros [= <- <-]. destruct (inv_settled _ _ _ Hp) as [Hs|?]; [|by right].
      left. rewrite Hstored. case_decide as Hd; [|done].
      subst d'. congruence.
Qed.
End Settle.

Lemma store_inv_handleResult L hs name v st :
  store_inv L st → stored_outcome st name = None →
  store_inv L (handleResult hs name v st).
Proof.
  intros Hinv Hfresh.
  apply (store_inv_settle L name (Fulfilled v) st); try done.
  - apply stored_outcome_handleResult.
  - intros n. simpl. destruct (decide (n = name)) as [->|Hne].
    + right. by apply stored_outcome_None in Hfresh as [_ ?].
    + rewrite lookup_insert_ne by done. by destruct Hinv.
Qed.

Lemma store_inv_handleError L hs name e st :
  store_inv L st → stored_outcome st name = None →
  store_inv L (handleError hs name e st).
Proof.
  intros Hinv Hfresh. pose proof Hfresh as [Hres Herr]%stored_outcome_None.
  apply (store_inv_settle L name (Rejected e) st); try done.
  - intros n. by apply stored_outcome_handleError.
  - intros n. simpl. destruct (decide (n = name)) as [->|Hne].
    + by left.
    + rewrite lookup_insert_ne by done. by destruct Hinv.
Qed.

(** * The run invariant *)

(** Assigning under a name not assigned before. *)
Lemma set_property_object_of name v (entries : gmap string value) :
  entries !! name = None →
  set_property name v (object_of entries) = object_of (<[name := v]> entries).
Proof.
  intros Hfresh. unfold set_property, object_of.
  destruct (decide (name = "__proto__")) as [->|Hne].
  - rewrite lookup_insert_eq, Hfresh, delete_insert_eq. simpl.
    by destruct (is_object v).
  - rewrite lookup_insert_ne by done. simpl.
    by rewrite delete_insert_ne.
Qed.

Lemma own_object_of (entries : gmap string value) n :
  own (object_of entries) !! n =
    if decide (n = "__proto__") then None else entries !! n.
Proof.
  unfold object_of. simpl. case_decide as Hn.
  - subst. by rewrite lookup_delete_eq.
  - by rewrite lookup_delete_ne.
Qed.

(** [waitForDep] touches neither [results], [errors] nor [returnValue]. *)
Lemma waitForDep_frame tasks c d st :
  let st' := (waitForDep tasks c d st).2 in
  results st' = results st ∧ errors st' = errors st
  ∧ returnValue st' = returnValue st.
Proof.
  unfold waitForDep.
  destruct (negb (in_tasks tasks d)); [done|].
  destruct (decide (c = d)); [done|].
  destruct (hasCyclePath (waitingFor st) d c); [done|]. simpl.
  destruct (results st !! d); [done|]. by destruct (errors st !! d).
Qed.

Lemma run_sync_frame tasks name c st :
  let st' := (run_sync tasks name c st).2 in
  results st' = results st ∧ errors st' = errors st
  ∧ returnValue st' = returnValue st.
Proof.
  revert st. induction c as [| |dep k IH| | |]; intros st; simpl; try done.
  destruct (waitForDep tasks name dep st) as [p st1] eqn:Hw.
  destruct (IH p st1) as (-> & -> & ->).
  pose proof (waitForDep_frame tasks name dep st) as Hf.
  rewrite Hw in Hf. apply Hf.
Qed.

Lemma stored_outcome_frame st st' n :
  results st' = results st → errors st' = errors st →
  stored_outcome st' n = stored_outcome st n.
Proof. unfold stored_outcome. by intros -> ->. Qed.

Lemma size_list_to_set_NoDup (l : list string) :
  NoDup l → size (list_to_set (C := gset string) l) = length l.
Proof.
  induction 1 as [|x l Hx _ IH]; [done|]. simpl.
  rewrite size_union, size_singleton, IH; [done|].
  apply disjoint_singleton_l. by rewrite elem_of_list_to_set.
Qed.

(** While a declared task is unsettled, fewer tasks have settled than
    there are tasks. *)
Lemma unsettled_count (names : list string) st name :
  NoDup names → name ∈ names →
  (∀ n, is_Some (stored_outcome st n) → n ∈ names) →
  stored_outcome st name = None →
  (∀ n, results st !! n = None ∨ errors st !! n = None) →
  size (results st) + size (errors st) < length names.
Proof.
  intros Hnd Hname Hdom Hfresh Hdisj.
  apply stored_outcome_None in Hfresh as [Hres Herr].
  rewrite <-(size_list_to_set_NoDup names), <-!size_dom by done.
  rewrite <-size_union.
  2:{ intros n [v Hv]%elem_of_dom [e He]%elem_of_dom.
      destruct (Hdisj n); congruence. }
  apply subset_size. split.
  - intros n Hn. apply elem_of_list_to_set, Hdom.
    unfold stored_outcome.
    apply elem_of_union in Hn as [[v ->]%elem_of_dom|[e He]%elem_of_dom];
      [done|]. rewrite He. by destruct (results st !! n).
  - intros Hsub. specialize (Hsub name).
    rewrite elem_of_list_to_set, elem_of_union, !elem_of_dom in Hsub.
    rewrite Hres, Herr in Hsub. destruct (Hsub Hname) as [[? [=]]|[? [=]]].
Qed.

Section Preservation.
Variables (tasks : task_set) (handleSettled : bool).
Hypothesis Hnodup : NoDup (taskNames tasks).

Lemma sys_inv_mono L L' s :
  L ⊆ L' → L' ⊆ taskNames tasks →
  sys_inv tasks handleSettled L s → sys_inv tasks handleSettled L' s.
Proof.
  intros HL HL' [si_store si_launched si_status_dom si_finished si_return si_remaining si_rejections si_call]. split; try done.
  - by eapply store_inv_mono.
  - intros n t Hn. apply HL. by eapply si_status_dom.
Qed.

Lemma sys_inv_settled_declared L s n :
  sys_inv tasks handleSettled L s →
  is_Some (stored_outcome (store s) n) → n ∈ taskNames tasks.
Proof.
  intros [si_store si_launched si_status_dom si_finished si_return si_remaining si_rejections si_call] Hn. apply si_launched. eapply si_status_dom.
  by apply si_finished.
Qed.

Lemma sys_inv_unsettled L s name :
  sys_inv tasks handleSettled L s →
  name ∈ L → status s !! name ≠ Some Finished →
  stored_outcome (store s) name = None.
Proof.
  intros [si_store si_launched si_status_dom si_finished si_return si_remaining si_rejections si_call] Hname Hst.
  destruct (stored_outcome (store s) name) eqn:Ho; [|done].
  destruct Hst. apply si_finished. by rewrite Ho.
Qed.

Lemma sys_inv_remaining_pos L s name :
  sys_inv tasks handleSettled L s →
  name ∈ L → stored_outcome (store s) name = None →
  remaining s ≠ 0.
Proof.
  intros Hinv Hname Hfresh. pose proof Hinv as [si_store si_launched si_status_dom si_finished si_return si_remaining si_rejections si_call].
  pose proof (unsettled_count (taskNames tasks) (store s) name Hnodup
    (si_launched _ Hname) (λ n, sys_inv_settled_declared L s n Hinv) Hfresh
    (inv_disjoint _ _ si_store)) as Hlt.
  rewrite si_remaining. destruct handleSettled; lia.
Qed.

Lemma sys_inv_with_store L s st' :
  sys_inv tasks handleSettled L s →
  store_inv L st' →
  results st' = results (store s) → errors st' = errors (store s) →
  returnValue st' = returnValue (store s) →
  sys_inv tasks handleSettled L (with_store st' s).
Proof.
  intros [si_store si_launched si_status_dom si_finished si_return si_remaining si_rejections si_call] Hstore Hres Herr Hret. split; simpl; try done.
  - intros n. by rewrite (stored_outcome_frame (store s) st').
  - rewrite Hret, si_return. unfold expected_returnValue, assigned.
    by rewrite Hres, Herr.
  - by rewrite Hres, Herr.
  - by rewrite Herr.
  - rewrite si_call. unfold expected_call. simpl. by rewrite Hret.
Qed.

(** The wrapper of [name] stops at a suspension point. *)
Lemma sys_inv_suspend L s name c st' :
  sys_inv tasks handleSettled L s →
  name ∈ L → status s !! name ≠ Some Finished →
  store_inv L st' →
  results st' = results (store s) → errors st' = errors (store s) →
  returnValue st' = returnValue (store s) →
  sys_inv tasks handleSettled L
    (with_status name (Suspended c) (with_store st' s)).
Proof.
  intros Hinv Hname Hst Hstore Hres Herr Hret.
  pose proof (sys_inv_unsettled L s name Hinv Hname Hst) as Hfresh.
  destruct Hinv as [si_store si_launched si_status_dom si_finished si_return si_remaining si_rejections si_call]. split; simpl; try done.
  - intros n t. destruct (decide (n = name)) as [->|Hne]; [done|].
    rewrite lookup_insert_ne by done. apply si_status_dom.
  - intros n. rewrite (stored_outcome_frame (store s) st') by done.
    destruct (decide (n = name)) as [->|Hne].
    + rewrite lookup_insert_eq, Hfresh. split; [done|]. by intros [? [=]].
    + by rewrite lookup_insert_ne.
  - rewrite Hret, si_return. unfold expected_returnValue, assigned.
    by rewrite Hres, Herr.
  - by rewrite Hres, Herr.
  - by rewrite Herr.
  - rewrite si_call. unfold expected_call. simpl. by rewrite Hret.
Qed.

Lemma sys_inv_resume L s name c0 c :
  sys_inv tasks handleSettled L s →
  status s !! name = Some (Suspended c0) →
  sys_inv tasks handleSettled L (resume tasks name c s).
Proof.
  intros Hinv Hst. unfold resume.
  assert (name ∈ L) as Hname by (by destruct Hinv; eauto).
  pose proof (store_inv_run_sync L tasks name c (store s)) as Hstore.
  pose proof (run_sync_frame tasks name c (store s)) as Hframe.
  destruct (run_sync tasks name c (store s)) as [c' st'].
  simpl in *. destruct Hframe as (? & ? & ?).
  apply sys_inv_suspend; try done.
  - by rewrite Hst.
  - apply Hstore; [by destruct Hinv|done].
Qed.

Lemma sys_inv_succeed L s name v :
  sys_inv tasks handleSettled L s →
  name ∈ L → status s !! name ≠ Some Finished →
  sys_inv tasks handleSettled L (succeed handleSettled name v s).
Proof.
  intros Hinv Hname Hst.
  pose proof (sys_inv_unsettled L s name Hinv Hname Hst) as Hfresh.
  pose proof (sys_inv_remaining_pos L s name Hinv Hname Hfresh) as Hpos.
  pose proof Hfresh as [Hres Herr]%stored_outcome_None.
  destruct Hinv as [si_store si_launched si_status_dom si_finished si_return si_remaining si_rejections si_call]. split; simpl; try done.
  - by apply store_inv_handleResult.
  - intros n t. destruct (decide (n = name)) as [->|Hne]; [done|].
    rewrite lookup_insert_ne by done. apply si_status_dom.
  - intros n.
    change (mkState _ _ _ _ _ _) with (handleResult handleSettled name v (store s)).
    rewrite stored_outcome_handleResult.
    destruct (decide (n = name)) as [->|Hne].
    + rewrite lookup_insert_eq. naive_solver.
    + by rewrite lookup_insert_ne.
  - rewrite si_return. unfold expected_returnValue, assigned. simpl.
    destruct handleSettled.
    + rewrite fmap_insert, <-insert_union_l.
      apply set_property_object_of.
      by rewrite lookup_union_None, !lookup_fmap, Hres, Herr.
    + by apply set_property_object_of.
  - rewrite map_size_insert_None by done. rewrite si_remaining. lia.
  - rewrite si_call. unfold expected_call. simpl.
    destruct (rejections s) as [|[? ?] ?]; [|done].
    by rewrite (decide_False (P := remaining s = 0)).
Qed.

Lemma sys_inv_fail L s name e :
  sys_inv tasks handleSettled L s →
  name ∈ L → status s !! name ≠ Some Finished →
  sys_inv tasks handleSettled L (fail handleSettled name e s).
Proof.
  intros Hinv Hname Hst.
  pose proof (sys_inv_unsettled L s name Hinv Hname Hst) as Hfresh.
  pose proof (sys_inv_remaining_pos L s name Hinv Hname Hfresh) as Hpos.
  pose proof Hfresh as [Hres Herr]%stored_outcome_None.
  destruct Hinv as [si_store si_launched si_status_dom si_finished si_return si_remaining si_rejections si_call]. unfold fail.
  assert (∀ n, <[name:=Finished]> (status s) !! n = Some Finished ↔
     is_Some (stored_outcome (handleError handleSettled name e (store s)) n))
    as Hfin.
  { intros n. rewrite stored_outcome_handleError by done.
    destruct (decide (n = name)) as [->|Hne].
    + rewrite lookup_insert_eq. naive_solver.
    + by rewrite lookup_insert_ne. }
  assert (∀ n t, <[name:=Finished]> (status s) !! n = Some t → n ∈ L) as Hdom.
  { intros n t. destruct (decide (n = name)) as [->|Hne]; [done|].
    rewrite lookup_insert_ne by done. apply si_status_dom. }
  destruct handleSettled; split; simpl; try done.
  - by apply store_inv_handleError.
  - rewrite si_return. unfold expected_returnValue, assigned. simpl.
    rewrite fmap_insert, <-insert_union_r by (by rewrite lookup_fmap, Hres).
    apply set_property_object_of.
    by rewrite lookup_union_None, !lookup_fmap, Hres, Herr.
  - rewrite map_size_insert_None by done. rewrite si_remaining. lia.
  - rewrite si_call. unfold expected_call. simpl. rewrite si_rejections.
    by rewrite (decide_False (P := remaining s = 0)).
  - by apply store_inv_handleError.
  - intros n e'. rewrite elem_of_app, list_elem_of_singleton, si_rejections.
    destruct (decide (n = name)) as [->|Hne].
    + rewrite lookup_insert_eq, Herr. naive_solver.
    + rewrite lookup_insert_ne by done. naive_solver.
  - rewrite si_call. unfold expected_call. simpl.
    destruct (rejections s) as [|[? ?] ?]; [|done]. simpl.
    by rewrite (decide_False (P := remaining s = 0)).
Qed.
End Preservation.

Lemma acyclic_empty : acyclic ∅.
Proof.
  intros x y Hxy. unfold edge, deps_of in Hxy. rewrite lookup_empty in Hxy.
  by apply elem_of_nil in Hxy.
Qed.

Lemma store_inv_init : store_inv [] init_state.
Proof.
  split; simpl; try done.
  - by left.
  - intros n [? Hn]. by rewrite lookup_empty in Hn.
  - apply acyclic_empty.
Qed.

Section Runs.
Variables (tasks : task_set) (handleSettled : bool).
Hypothesis Hnodup : NoDup (taskNames tasks).

Lemma sys_inv_init : sys_inv tasks handleSettled [] (init_sys tasks).
Proof.
  split; simpl; try done.
  - apply store_inv_init.
  - intros n ?%elem_of_nil. done.
  - intros n. rewrite lookup_empty. unfold stored_outcome. simpl.
    rewrite !lookup_empty. split; [done|]. by intros [? [=]].
  - unfold expected_returnValue, assigned, object_of. simpl.
    destruct handleSettled;
      by rewrite ?fmap_empty, ?(left_id_L ∅ (∪)), delete_empty, lookup_empty.
  - rewrite map_size_empty. destruct handleSettled; lia.
  - destruct handleSettled; [done|]. intros n e.
    rewrite lookup_empty. split; [by intros ?%elem_of_nil|done].
Qed.

Lemma sys_inv_invoked L s log :
  sys_inv tasks handleSettled L s →
  sys_inv tasks handleSettled L
    (mkSys (store s) (status s) (remaining s) (call s) log (rejections s)).
Proof. intros [si_store si_launched si_status_dom si_finished si_return si_remaining si_rejections si_call]. by split. Qed.

Lemma sys_inv_launch L s name :
  sys_inv tasks handleSettled L s →
  name ∈ taskNames tasks → name ∉ L → L ⊆ taskNames tasks →
  sys_inv tasks handleSettled (L ++ [name]) (launch tasks handleSettled name s).
Proof using Hnodup.
  intros Hinv Hname Hnew HL.
  assert (status s !! name ≠ Some Finished) as Hst.
  { intros Hst. apply Hnew. by destruct Hinv; eauto. }
  assert (name ∈ L ++ [name]) as Hin by set_solver.
  apply (sys_inv_mono tasks handleSettled L (L ++ [name])) in Hinv;
    [|set_solver..].
  unfold launch.
  destruct (task_lookup tasks name) as [[v|sync body]|];
    [by apply sys_inv_fail| |by apply sys_inv_fail].
  apply (sys_inv_invoked _ _ (invoked s ++ [name])) in Hinv.
  set (s1 := mkSys _ _ _ _ _ _) in *. change (store s1) with (store s) in *.
  pose proof (store_inv_run_sync (L ++ [name]) tasks name body (store s)) as Hstore.
  pose proof (run_sync_frame tasks name body (store s)) as Hframe.
  destruct (run_sync tasks name body (store s)) as [c st'].
  simpl in Hstore, Hframe. destruct Hframe as (Hres & Herr & Hret).
  assert (store_inv (L ++ [name]) st') as Hstore'.
  { apply Hstore; [by destruct Hinv|done]. }
  assert (∀ c', sys_inv tasks handleSettled (L ++ [name])
                  (with_status name (Suspended c') (with_store st' s1))) as Hsusp.
  { intros c'. by apply sys_inv_suspend. }
  destruct c as [| e | | | |]; try apply Hsusp.
  destruct sync; [|apply Hsusp].
  (* a synchronous throw: the wrapper fails before it ever suspends *)
  apply sys_inv_fail; [done| |done|done].
  by apply sys_inv_with_store.
Qed.

Lemma sys_inv_launch_all todo : ∀ launched s,
  launched ++ todo = taskNames tasks →
  sys_inv tasks handleSettled launched s →
  sys_inv tasks handleSettled (taskNames tasks)
    (foldl (λ s name, launch tasks handleSettled name s) s todo).
Proof using Hnodup.
  induction todo as [|name todo IH]; intros launched s Hsplit Hinv; simpl.
  { by rewrite app_nil_r in Hsplit; subst. }
  apply (IH (launched ++ [name])); [by rewrite <-app_assoc|].
  pose proof Hnodup as Hnd. rewrite <-Hsplit in Hnd.
  apply NoDup_app in Hnd as (_ & Hnew & _).
  apply sys_inv_launch; [done|..].
  - rewrite <-Hsplit. set_solver.
  - intros Hin. apply (Hnew name Hin). left.
  - rewrite <-Hsplit. set_solver.
Qed.

Lemma sys_inv_execute :
  sys_inv tasks handleSettled (taskNames tasks)
    (executeTasksInternal tasks handleSettled).
Proof using Hnodup.
  apply (sys_inv_launch_all _ []); [done|apply sys_inv_init].
Qed.

Lemma sys_inv_step s name :
  sys_inv tasks handleSettled (taskNames tasks) s →
  sys_inv tasks handleSettled (taskNames tasks)
    (step tasks handleSettled name s).
Proof using Hnodup.
  intros Hinv. unfold step.
  destruct (status s !! name) as [[c|]|] eqn:Hst; [|done..].
  assert (name ∈ taskNames tasks) as Hname by (by destruct Hinv; eauto).
  assert (status s !! name ≠ Some Finished) as Hrun by (by rewrite Hst).
  destruct c as [v|e|dep k|p k|k|ready k].
  - by apply sys_inv_succeed.
  - by apply sys_inv_fail.
  - by eapply sys_inv_resume.
  - destruct (heap (store s) !! p) as [[d [|o]]|]; [done| |done].
    by eapply sys_inv_resume.
  - by eapply sys_inv_resume.
  - simpl. case_match; [by eapply sys_inv_resume|done].
Qed.

Lemma sys_inv_run schedule : ∀ s,
  sys_inv tasks handleSettled (taskNames tasks) s →
  sys_inv tasks handleSettled (taskNames tasks)
    (run tasks handleSettled schedule s).
Proof using Hnodup.
  induction schedule as [|name schedule IH]; intros s Hinv; [done|].
  simpl. by apply IH, sys_inv_step.
Qed.

End Runs.

(** * The two entry points run the same core *)











(** * What every operation keeps of the wait graph *)

Section GraphKept.
Variable P : gmap string (list string) → Prop.
Hypothesis Hrecord : ∀ g c d, P g → ¬ reach g d c → P (recorded g c d).

Lemma kept_waitForDep tasks c d st :
  P (waitingFor st) → P (waitingFor (waitForDep tasks c d st).2).
Proof using Hrecord.
  intros HP. unfold waitForDep.
  destruct (negb (in_tasks tasks d)); [done|].
  destruct (decide (c = d)); [done|].
  destruct (hasCyclePath (waitingFor st) d c) eqn:Hcyc; [done|].
  assert (P (recorded (waitingFor st) c d)) as HP'.
  { apply Hrecord; [done|]. intros ?%hasCyclePath_reach. congruence. }
  simpl. destruct (results st !! d); [done|]. by destruct (errors st !! d).
Qed.

Lemma kept_run_sync tasks name c st :
  P (waitingFor st) → P (waitingFor (run_sync tasks name c st).2).
Proof using Hrecord.
  revert st. induction c as [| |dep k IH| | |]; intros st HP; simpl; try done.
  pose proof (kept_waitForDep tasks name dep st HP) as HP'.
  destruct (waitForDep tasks name dep st) as [p st']. by apply IH.
Qed.

Lemma wait_graph_fail hs name e s :
  wait_graph (fail hs name e s) = wait_graph s.
Proof. unfold fail. by destruct hs. Qed.

Lemma kept_resume tasks name c s :
  P (wait_graph s) → P (wait_graph (resume tasks name c s)).
Proof using Hrecord.
  intros HP. unfold resume.
  pose proof (kept_run_sync tasks name c (store s) HP) as HP'.
  by destruct (run_sync tasks name c (store s)).
Qed.

Lemma kept_launch tasks hs name s :
  P (wait_graph s) → P (wait_graph (launch tasks hs name s)).
Proof using Hrecord.
  intros HP. unfold launch.
  destruct (task_lookup tasks name) as [[v|sync body]|];
    [by rewrite wait_graph_fail| |by rewrite wait_graph_fail].
  cbn [store].
  pose proof (kept_run_sync tasks name body (store s) HP) as HP'.
  destruct (run_sync tasks name body (store s)) as [c st'].
  destruct c as [| e | | | |]; try done.
  destruct sync; [|done]. by rewrite wait_graph_fail.
Qed.

Lemma kept_step tasks hs name s :
  P (wait_graph s) → P (wait_graph (step tasks hs name s)).
Proof using Hrecord.
  intros HP. unfold step.
  destruct (status s !! name) as [[c|]|]; [|done..].
  destruct c as [v|e|dep k|p k|k|ready k]; try by apply kept_resume.
  - done.
  - by rewrite wait_graph_fail.
  - destruct (heap (store s) !! p) as [[d [|o]]|]; [done| |done].
    by apply kept_resume.
  - simpl. case_match; [by apply kept_resume|done].
Qed.

Lemma kept_run tasks hs schedule s :
  P (wait_graph s) → P (wait_graph (run tasks hs schedule s)).
Proof using Hrecord.
  revert s. induction schedule as [|name schedule IH]; intros s HP; [done|].
  simpl. by apply IH, kept_step.
Qed.

Lemma kept_execute tasks hs :
  P ∅ → P (wait_graph (executeTasksInternal tasks hs)).
Proof using Hrecord.
  intros HP. unfold executeTasksInternal.
  assert (P (wait_graph (init_sys tasks))) as Hinit by done.
  revert Hinit. generalize (init_sys tasks).
  induction (taskNames tasks) as [|name names IH]; intros s Hs; [done|].
  simpl. by apply IH, kept_launch.
Qed.
End GraphKept.

(** * The invocation log *)

Lemma invoked_fail hs name e s : invoked (fail hs name e s) = invoked s.
Proof. unfold fail. by destruct hs. Qed.

Lemma invoked_resume tasks name c s : invoked (resume tasks name c s) = invoked s.
Proof. unfold resume. by destruct (run_sync tasks name c (store s)). Qed.

Lemma invoked_step tasks hs name s : invoked (step tasks hs name s) = invoked s.
Proof.
  unfold step. destruct (status s !! name) as [[c|]|]; [|done..].
  destruct c as [v|e|dep k|p k|k|ready k]; try apply invoked_resume.
  - done.
  - apply invoked_fail.
  - destruct (heap (store s) !! p) as [[d [|o]]|]; [done| |done].
    apply invoked_resume.
  - simpl. case_match; [apply invoked_resume|done].
Qed.

Lemma invoked_run tasks hs schedule s :
  invoked (run tasks hs schedule s) = invoked s.
Proof.
  revert s. induction schedule as [|name schedule IH]; intros s; [done|].
  simpl. by rewrite IH, invoked_step.
Qed.

Lemma invoked_launch tasks hs name s :
  invoked (launch tasks hs name s) =
    invoked s ++ (if callable tasks name then [name] else []).
Proof.
  unfold launch, callable.
  destruct (task_lookup tasks name) as [[v|sync body]|];
    [by rewrite invoked_fail, app_nil_r| |by rewrite invoked_fail, app_nil_r].
  cbn [store]. destruct (run_sync tasks name body (store s)) as [c st'].
  destruct c as [| e | | | |]; try done.
  destruct sync; [|done]. by rewrite invoked_fail.
Qed.

(** The bodies entered by a call: those of the callable entries, each
    once, in key order. *)
Lemma invoked_execute tasks hs :
  invoked (executeTasksInternal tasks hs) =
    filter (λ n, callable tasks n) (taskNames tasks).
Proof.
  unfold executeTasksInternal.
  assert (∀ names s,
    invoked (foldl (λ s name, launch tasks hs name s) s names) =
      invoked s ++ filter (λ n, callable tasks n) names) as Hgen.
  { induction names as [|name names IH]; intros s; simpl.
    - by rewrite app_nil_r.
    - rewrite IH, invoked_launch, filter_cons.
      destruct (callable tasks name); simpl; by rewrite <-?app_assoc, ?app_nil_r. }
  by rewrite Hgen.
Qed.

Lemma task_lookup_Some tasks name e :
  task_lookup tasks name = Some e → name ∈ taskNames tasks.
Proof.
  induction tasks as [|[n e'] tasks IH]; simpl; [done|].
  case_decide as Hn; [subst; intros _; left|]. intros ?%IH. by right.
Qed.



(** * What never changes once it is set *)

Lemma call_rejected_step tasks hs name s e :
  call s = CallRejected e → call (step tasks hs name s) = CallRejected e.
Proof.
  intros Hcall. unfold step.
  destruct (status s !! name) as [[c|]|]; [|done..].
  assert (∀ c, call (resume tasks name c s) = CallRejected e) as Hres.
  { intros c'. unfold resume. by destruct (run_sync tasks name c' (store s)). }
  destruct c as [v|err|dep k|p k|k|ready k]; try apply Hres.
  - unfold succeed, wrapper_fulfilled. simpl. by rewrite Hcall.
  - unfold fail, wrapper_fulfilled, wrapper_rejected.
    destruct hs; simpl; by rewrite Hcall.
  - destruct (heap (store s) !! p) as [[d [|o]]|]; [done| |done]. apply Hres.
  - simpl. case_match; [apply Hres|done].
Qed.

Lemma call_rejected_run tasks hs schedule s e :
  call s = CallRejected e → call (run tasks hs schedule s) = CallRejected e.
Proof.
  revert s. induction schedule as [|name schedule IH]; intros s Hs; [done|].
  simpl. by apply IH, call_rejected_step.
Qed.

Section Stable.
Variables (tasks : task_set) (handleSettled : bool).
Hypothesis Hnodup : NoDup (taskNames tasks).


Lemma stored_outcome_succeed name v s n :
  stored_outcome (store (succeed handleSettled name v s)) n =
    if decide (n = name) then Some (Fulfilled v)
    else stored_outcome (store s) n.
Proof. apply stored_outcome_handleResult. Qed.

Lemma stored_outcome_fail name e s n :
  results (store s) !! name = None →
  stored_outcome (store (fail handleSettled name e s)) n =
    if decide (n = name) then Some (Rejected e)
    else stored_outcome (store s) n.
Proof.
  intros Hres. unfold fail.
  destruct handleSettled; by apply stored_outcome_handleError.
Qed.


End Stable.


(** * The aggregate result *)

Lemma execute_entry tasks (hs : bool) :
  (if hs then allSettled tasks else all tasks) = executeTasksInternal tasks hs.
Proof. by destruct hs. Qed.

Section Aggregate.
Variables (tasks : task_set) (hs : bool) (s : sys).
Hypothesis Hnodup : NoDup (taskNames tasks).
Hypothesis Hinv : sys_inv tasks hs (taskNames tasks) s.

Lemma settled_declared n :
  is_Some (stored_outcome (store s) n) → n ∈ taskNames tasks.
Proof using Hinv. by eapply sys_inv_settled_declared. Qed.

Lemma all_settled_stored :
  all_settled tasks s ↔
  ∀ n, n ∈ taskNames tasks → is_Some (stored_outcome (store s) n).
Proof using Hinv.
  destruct Hinv as [si_store si_launched si_status_dom si_finished si_return si_remaining si_rejections si_call]. split; intros H n Hn; by apply si_finished, H.
Qed.

(** Once every task has settled, as many have settled as there are. *)
Lemma all_settled_count :
  all_settled tasks s →
  length (taskNames tasks) ≤ size (results (store s)) + size (errors (store s)).
Proof using Hinv Hnodup.
  intros Hall0. pose proof (proj1 all_settled_stored Hall0) as Hall.
  rewrite <-(size_list_to_set_NoDup (taskNames tasks)), <-!size_dom by done.
  rewrite <-size_union.
  2:{ intros n [v Hv]%elem_of_dom [e He]%elem_of_dom.
      destruct Hinv as [[Hd _ _ _ _ _] _ _ _ _ _ _ _].
      destruct (Hd n); congruence. }
  apply subseteq_size. intros n Hn%elem_of_list_to_set.
  destruct (Hall n Hn) as [o Ho]. unfold stored_outcome in Ho.
  rewrite elem_of_union, !elem_of_dom.
  destruct (results (store s) !! n); [left; eauto|].
  destruct (errors (store s) !! n); [right; eauto|done].
Qed.

Lemma all_fulfilled_settled : all_fulfilled tasks s → all_settled tasks s.
Proof using Hinv.
  intros Hall. apply all_settled_stored. intros n [v Hv]%Hall.
  unfold stored_outcome. rewrite Hv. eauto.
Qed.

Lemma all_fulfilled_no_error : all_fulfilled tasks s → errors (store s) = ∅.
Proof using Hinv.
  intros Hall. apply map_empty. intros n.
  destruct (errors (store s) !! n) as [e|] eqn:He; [|done].
  assert (n ∈ taskNames tasks) as Hn.
  { apply settled_declared. unfold stored_outcome. rewrite He.
    destruct (results (store s) !! n); eauto. }
  destruct (Hall n Hn) as [v Hv].
  destruct Hinv as [[Hd _ _ _ _ _] _ _ _ _ _ _ _].
  destruct (Hd n); congruence.
Qed.

Lemma dom_results_all_fulfilled :
  all_fulfilled tasks s →
  dom (results (store s)) = list_to_set (taskNames tasks).
Proof using Hinv.
  intros Hall. apply set_eq. intros n.
  rewrite elem_of_dom, elem_of_list_to_set. split; [|apply Hall].
  intros [v Hv]. apply settled_declared. unfold stored_outcome.
  rewrite Hv. eauto.
Qed.
End Aggregate.

(** Settle-all: what has been assigned is, name by name, the descriptor
    of the stored outcome. *)
Lemma assigned_settle_all st n :
  assigned true st !! n = descriptor <$> stored_outcome st n.
Proof.
  unfold assigned, stored_outcome.
  destruct (results st !! n) as [v|] eqn:Hv.
  - erewrite lookup_union_Some_l; [done|]. by rewrite lookup_fmap, Hv.
  - rewrite lookup_union_r by (by rewrite lookup_fmap, Hv).
    rewrite lookup_fmap. by destruct (errors st !! n).
Qed.

(** Settle-all: the mapping has the descriptor of the stored outcome as
    own property under every name but [__proto__]; the descriptor of the
    task of that name, if there is one, has become its prototype. *)
Lemma allSettled_mapping tasks L s n :
  sys_inv tasks true L s →
  own (returnValue (store s)) !! n =
    (if decide (n = "__proto__") then None
     else descriptor <$> stored_outcome (store s) n)
  ∧ proto (returnValue (store s)) =
      descriptor <$> stored_outcome (store s) "__proto__".
Proof.
  intros [_ _ _ _ -> _ _ _]. unfold expected_returnValue. split.
  - rewrite own_object_of. case_decide; [done|]. apply assigned_settle_all.
  - unfold object_of. cbn [proto]. rewrite assigned_settle_all.
    by destruct (stored_outcome (store s) "__proto__") as [[v|e]|].
Qed.

(** Settle-all: the mapping is never a thenable, its [then], if it has
    one, is a descriptor. *)
Lemma allSettled_not_thenable tasks L s :
  sys_inv tasks true L s → is_thenable (returnValue (store s)) = false.
Proof.
  intros Hinv. unfold is_thenable.
  destruct (allSettled_mapping tasks L s "then" Hinv) as [-> _].
  rewrite decide_False by done.
  by destruct (stored_outcome (store s) "then") as [[v|e]|].
Qed.

(** Settle-all: the returned promise is pending until the last task
    settles, then resolved with the mapping; it is never rejected. *)
Lemma allSettled_call tasks s :
  NoDup (taskNames tasks) →
  sys_inv tasks true (taskNames tasks) s →
  (∀ e, call s ≠ CallRejected e)
  ∧ (all_settled tasks s → call s = CallResolved (returnValue (store s))).
Proof.
  intros Hnodup Hinv.
  pose proof (allSettled_not_thenable tasks _ s Hinv) as Hplain.
  pose proof Hinv as [si_store si_launched si_status_dom si_finished si_return si_remaining si_rejections si_call].
  rewrite si_call. unfold expected_call, resolve_call. rewrite Hplain.
  simpl in si_rejections.
  rewrite si_rejections. split.
  - intros e. by case_decide.
  - intros Hall. rewrite decide_True; [done|].
    pose proof (all_settled_count tasks true s Hnodup Hinv Hall).
    rewrite si_remaining. lia.
Qed.

(** Fail-fast: rejected with the oldest rejection if there is one,
    resolved with the mapping once every task is fulfilled. *)
Lemma all_call tasks s :
  NoDup (taskNames tasks) →
  sys_inv tasks false (taskNames tasks) s →
  (∀ n e, errors (store s) !! n = Some e →
     ∃ n0 e0 rest, rejections s = (n0, e0) :: rest
                   ∧ errors (store s) !! n0 = Some e0
                   ∧ call s = CallRejected e0)
  ∧ (all_fulfilled tasks s →
       call s = resolve_call (returnValue (store s))
       ∧ returnValue (store s) = object_of (results (store s))).
Proof.
  intros Hnodup Hinv. pose proof Hinv as [si_store si_launched si_status_dom si_finished si_return si_remaining si_rejections si_call].
  simpl in si_rejections, si_return, si_remaining.
  rewrite si_call. unfold expected_call. split.
  - intros n e He%si_rejections.
    destruct (rejections s) as [|[n0 e0] rest]; [by apply elem_of_nil in He|].
    exists n0, e0, rest. split; [done|]. split; [|done].
    apply si_rejections. left.
  - intros Hall.
    pose proof (all_fulfilled_no_error tasks false s Hinv Hall) as Herr.
    destruct (rejections s) as [|[n0 e0] rest] eqn:Hrej.
    + rewrite decide_True; [by rewrite si_return|].
      pose proof (all_settled_count tasks false s Hnodup Hinv
                    (all_fulfilled_settled tasks false s Hinv Hall)) as Hc.
      rewrite Herr, map_size_empty in Hc. rewrite si_remaining. lia.
    + assert (errors (store s) !! n0 = Some e0) as He.
      { apply si_rejections. left. }
      by rewrite Herr in He.
Qed.

(** Every task fulfilled, checked by evaluation on a concrete run. *)
Lemma all_fulfilled_check tasks s :
  forallb (λ n, bool_decide (is_Some (results (store s) !! n))) (taskNames tasks) = true →
  all_fulfilled tasks s.
Proof.
  intros Hall n Hn. rewrite forallb_forall in Hall.
  apply (bool_decide_unpack _), Is_true_true, Hall. by apply list_elem_of_In.
Qed.

(** * Strings *)

Lemma append_cons a (s t : string) : String a s +:+ t = String a (s +:+ t).
Proof. done. Qed.

Lemma append_assoc (s1 s2 s3 : string) :
  (s1 +:+ s2) +:+ s3 = s1 +:+ s2 +:+ s3.
Proof.
  induction s1 as [|a s1 IH]; [done|]. by rewrite !append_cons, IH.
Qed.

Lemma prefix_append (s t : string) : String.prefix s (s +:+ t) = true.
Proof.
  induction s as [|a s IH]; [by destruct t|].
  rewrite append_cons. simpl. by destruct (Ascii.ascii_dec a a).
Qed.

Lemma substring_of_here (s t : string) :
  String.prefix s t = true → substring_of s t = true.
Proof. intros H. destruct t; cbn [substring_of]; by rewrite H. Qed.

Lemma substring_of_append (pre s post : string) :
  substring_of s (pre +:+ s +:+ post) = true.
Proof.
  induction pre as [|a pre IH].
  - apply substring_of_here. exact (prefix_append s post).
  - rewrite append_cons. cbn [substring_of]. rewrite IH. apply orb_true_r.
Qed.

Lemma join_arrow_cons x y l :
  join_arrow (x :: y :: l) = x +:+ " → " +:+ join_arrow (y :: l).
Proof. done. Qed.

Lemma join_arrow_ends l t c :
  ∃ pre, join_arrow (l ++ [t; c]) = pre +:+ (t +:+ " → " +:+ c).
Proof.
  induction l as [|x l [pre IH]].
  - by exists EmptyString.
  - exists (x +:+ " → " +:+ pre).
    change ((x :: l) ++ [t; c]) with (x :: (l ++ [t; c])).
    destruct (l ++ [t; c]) as [|y l'] eqn:Hl; [by destruct l|].
    rewrite join_arrow_cons, IH. by rewrite !append_assoc.
Qed.

(** A message of the claimed shape contains [targetName → caller]. *)
Lemma claimed_cycle_message_hop caller targetName msg :
  claimed_cycle_message caller targetName msg →
  substring_of (targetName +:+ " → " +:+ caller) msg = true.
Proof.
  intros (pre & mid & post & ->).
  destruct (join_arrow_ends (caller :: mid) targetName caller) as [pre0 Hj].
  change (caller :: mid ++ [targetName; caller])
    with ((caller :: mid) ++ [targetName; caller]).
  rewrite Hj, append_assoc, <-(append_assoc pre).
  apply substring_of_append.
Qed.

(** * The handle, branch by branch *)

Lemma waitForDep_unknown tasks c d st :
  in_tasks tasks d = false →
  waitForDep tasks c d st =
    new_promise d (Settled (Rejected (VError (unknown_task_message d)))) st.
Proof. intros Hin. unfold waitForDep. by rewrite Hin. Qed.

Lemma waitForDep_self tasks c st :
  in_tasks tasks c = true →
  waitForDep tasks c c st =
    new_promise c
      (Settled (Rejected (VError (circular_prefix +:+ c +:+ " → " +:+ c)))) st.
Proof. intros Hin. unfold waitForDep. rewrite Hin. simpl. by rewrite decide_True. Qed.

Lemma waitForDep_cycle tasks c d st :
  in_tasks tasks d = true → c ≠ d → reach (waitingFor st) d c →
  waitForDep tasks c d st =
    new_promise d
      (Settled (Rejected (VError
         (cycle_message c (buildCyclePath (waitingFor st) d c))))) st.
Proof.
  intros Hin Hne Hreach%hasCyclePath_reach. unfold waitForDep.
  rewrite Hin. simpl. rewrite decide_False by done. by rewrite Hreach.
Qed.

(** The remaining branch: the edge is recorded and the promise is in the
    state the store dictates. *)
Lemma waitForDep_proceed tasks c d st :
  in_tasks tasks d = true → c ≠ d → ¬ reach (waitingFor st) d c →
  let r := waitForDep tasks c d st in
  heap r.2 !! r.1 = Some (mkFuture d (expected st d))
  ∧ waitingFor r.2 = recorded (waitingFor st) c d.
Proof.
  intros Hin Hne Hreach. unfold waitForDep.
  rewrite Hin. simpl. rewrite decide_False by done.
  destruct (hasCyclePath (waitingFor st) d c) eqn:Hcyc.
  { by apply hasCyclePath_reach in Hcyc. }
  unfold expected, stored_outcome.
  destruct (results st !! d); simpl.
  { split; [|done]. by rewrite lookup_app_r, Nat.sub_diag. }
  destruct (errors st !! d); simpl.
  { split; [|done]. by rewrite lookup_app_r, Nat.sub_diag. }
  split; [|done]. by rewrite lookup_app_r, Nat.sub_diag.
Qed.

Lemma in_tasks_declared tasks d : d ∈ taskNames tasks → in_tasks tasks d = true.
Proof. intros Hd. unfold in_tasks. by rewrite bool_decide_eq_true_2. Qed.

(** * Launching *)


Section Launch.
Variables (tasks : task_set) (hs : bool).
Hypothesis Hnodup : NoDup (taskNames tasks).




End Launch.

(** * How the store moves *)

Lemma evolves_refl st : evolves st st.
Proof. split; [|done]. intros p d ps Hp. exists ps. auto. Qed.

Lemma evolves_trans st1 st2 st3 :
  evolves st1 st2 → evolves st2 st3 → evolves st1 st3.
Proof.
  intros [Hh1 He1] [Hh2 He2]. split; [|auto].
  intros p d ps Hp.
  destruct (Hh1 _ _ _ Hp) as (ps1 & Hp1 & Hps1).
  destruct (Hh2 _ _ _ Hp1) as (ps2 & Hp2 & Hps2).
  exists ps2. split; [done|]. destruct Hps1 as [? | ->]; auto.
Qed.

Lemma evolves_new_promise d ps st : evolves st (new_promise d ps st).2.
Proof.
  split; [|done]. intros p d' ps' Hp. exists ps'. split; [|auto].
  simpl. rewrite lookup_app_l; [done|]. by eapply lookup_lt_Some.
Qed.

Lemma evolves_record_wait c d st : evolves st (record_wait c d st).
Proof.
  split.
  - intros p d' ps Hp. exists ps. auto.
  - intros x y Hxy. simpl. apply edge_recorded. by left.
Qed.

Lemma evolves_enqueue d p st : evolves st (enqueue_resolver d p st).
Proof. split; [|done]. intros q d' ps Hq. exists ps. auto. Qed.

Lemma evolves_waitForDep tasks c d st : evolves st (waitForDep tasks c d st).2.
Proof.
  unfold waitForDep.
  destruct (negb (in_tasks tasks d)); [apply evolves_new_promise|].
  destruct (decide (c = d)); [apply evolves_new_promise|].
  destruct (hasCyclePath (waitingFor st) d c); [apply evolves_new_promise|].
  eapply evolves_trans; [apply (evolves_record_wait c d)|].
  set (st1 := record_wait c d st).
  destruct (results st1 !! d); [apply evolves_new_promise|].
  destruct (errors st1 !! d); [apply evolves_new_promise|].
  eapply evolves_trans; [apply (evolves_new_promise d Pending)|].
  apply evolves_enqueue.
Qed.

Lemma evolves_run_sync tasks name c st :
  evolves st (run_sync tasks name c st).2.
Proof.
  revert st. induction c as [| |dep k IH| | |]; intros st; simpl;
    try apply evolves_refl.
  pose proof (evolves_waitForDep tasks name dep st) as Hw.
  destruct (waitForDep tasks name dep st) as [p st1]. simpl in Hw.
  eapply evolves_trans; [exact Hw|apply IH].
Qed.

Lemma notify_waiters_evolves name o st p d ps :
  heap st !! p = Some (mkFuture d ps) →
  ∃ ps', notify_waiters name o st !! p = Some (mkFuture d ps')
         ∧ (ps = Pending ∨ ps' = ps).
Proof.
  intros Hp. unfold notify_waiters.
  destruct (resolvers st !! name) as [q|]; [|eauto].
  rewrite drain_lookup, Hp. destruct ps as [|o']; [|eauto].
  case_decide; eauto.
Qed.

Lemma evolves_handleResult hs name v st : evolves st (handleResult hs name v st).
Proof. split; [|done]. intros p d ps. apply notify_waiters_evolves. Qed.

Lemma evolves_handleError hs name e st : evolves st (handleError hs name e st).
Proof. split; [|done]. intros p d ps. apply notify_waiters_evolves. Qed.

Lemma evolves_fail hs name e s : evolves (store s) (store (fail hs name e s)).
Proof. unfold fail. destruct hs; apply evolves_handleError. Qed.

Lemma evolves_resume tasks name c s :
  evolves (store s) (store (resume tasks name c s)).
Proof.
  unfold resume. pose proof (evolves_run_sync tasks name c (store s)) as H.
  by destruct (run_sync tasks name c (store s)).
Qed.

Lemma evolves_step tasks hs name s :
  evolves (store s) (store (step tasks hs name s)).
Proof.
  unfold step. destruct (status s !! name) as [[c|]|]; try apply evolves_refl.
  destruct c as [v|e|dep k|p k|k|ready k]; try apply evolves_resume.
  - apply evolves_handleResult.
  - apply evolves_fail.
  - destruct (heap (store s) !! p) as [[d [|o]]|]; try apply evolves_refl.
    apply evolves_resume.
  - simpl. case_match; [apply evolves_resume|apply evolves_refl].
Qed.

Lemma evolves_run tasks hs schedule s :
  evolves (store s) (store (run tasks hs schedule s)).
Proof.
  revert s. induction schedule as [|name schedule IH]; intros s;
    [apply evolves_refl|].
  simpl. eapply evolves_trans; [apply (evolves_step tasks hs name)|apply IH].
Qed.

Lemma evolves_launch tasks hs name s :
  evolves (store s) (store (launch tasks hs name s)).
Proof.
  unfold launch.
  destruct (task_lookup tasks name) as [[v|sync body]|];
    try apply evolves_fail.
  cbn [store].
  pose proof (evolves_run_sync tasks name body (store s)) as H.
  destruct (run_sync tasks name body (store s)) as [c st']. simpl in H.
  destruct c as [| e | | | |]; try done.
  destruct sync; [|done].
  eapply evolves_trans; [exact H|]. apply (evolves_fail hs name e (with_store st' _)).
Qed.

(** * Further properties of a run *)

Lemma status_resume_other tasks name c s n :
  n ≠ name → status (resume tasks name c s) !! n = status s !! n.
Proof.
  intros Hne. unfold resume. destruct (run_sync tasks name c (store s)).
  simpl. by rewrite lookup_insert_ne.
Qed.

Lemma status_fail hs name e s n :
  status (fail hs name e s) !! n =
    if decide (n = name) then Some Finished else status s !! n.
Proof.
  unfold fail. destruct hs; simpl; case_decide; subst;
    by rewrite ?lookup_insert_eq, ?lookup_insert_ne.
Qed.

Lemma status_step_other tasks hs name s n :
  n ≠ name → status (step tasks hs name s) !! n = status s !! n.
Proof.
  intros Hne. unfold step. destruct (status s !! name) as [[c|]|]; try done.
  destruct c as [v|e|dep k|p k|k|ready k];
    try by apply status_resume_other.
  - simpl. by rewrite lookup_insert_ne.
  - rewrite status_fail. by rewrite decide_False.
  - destruct (heap (store s) !! p) as [[d [|o]]|]; try done.
    by apply status_resume_other.
  - simpl. case_match; [by apply status_resume_other|done].
Qed.



(** * The state in which the call returns *)

Lemma results_fail hs name e s : results (store (fail hs name e s)) = results (store s).
Proof. unfold fail. by destruct hs. Qed.

Lemma results_launch tasks hs name s :
  results (store (launch tasks hs name s)) = results (store s).
Proof.
  unfold launch.
  destruct (task_lookup tasks name) as [[v|sync body]|];
    try apply results_fail.
  cbn [store]. pose proof (run_sync_frame tasks name body (store s)) as Hf.
  destruct (run_sync tasks name body (store s)) as [c st']. simpl in Hf.
  destruct Hf as (Hres & _).
  destruct c as [| e | | | |]; try done.
  destruct sync; [|done]. by rewrite results_fail.
Qed.

Lemma status_launch tasks hs name s n :
  n ≠ name → status (launch tasks hs name s) !! n = status s !! n.
Proof.
  intros Hne. unfold launch.
  destruct (task_lookup tasks name) as [[v|sync body]|];
    try (rewrite status_fail; by rewrite decide_False).
  cbn [store]. destruct (run_sync tasks name body (store s)) as [c st'].
  assert (∀ c', status (with_status name (Suspended c')
                  (with_store st'
                     (mkSys (store s) (status s) (remaining s) (call s)
                        (invoked s ++ [name]) (rejections s)))) !! n
                = status s !! n) as Hsusp.
  { intros c'. simpl. by rewrite lookup_insert_ne. }
  destruct c as [| e | | | |]; try apply Hsusp.
  destruct sync; [|apply Hsusp].
  rewrite status_fail. by rewrite decide_False.
Qed.

Lemma status_launch_self tasks hs name s :
  is_Some (status (launch tasks hs name s) !! name)
  ∧ (∀ body, task_lookup tasks name = Some (Function false body) →
       ∃ c, status (launch tasks hs name s) !! name = Some (Suspended c)).
Proof.
  unfold launch.
  destruct (task_lookup tasks name) as [[v|sync body]|].
  - rewrite status_fail, decide_True by done. split; [eauto|done].
  - cbn [store]. destruct (run_sync tasks name body (store s)) as [c st'].
    assert (∀ c', status (with_status name (Suspended c')
                    (with_store st'
                       (mkSys (store s) (status s) (remaining s) (call s)
                          (invoked s ++ [name]) (rejections s)))) !! name
                  = Some (Suspended c')) as Hsusp.
    { intros c'. simpl. by rewrite lookup_insert_eq. }
    destruct sync.
    + split; [|done].
      destruct c as [| e | | | |]; rewrite ?Hsusp; eauto.
      rewrite status_fail, decide_True by done. eauto.
    + destruct c; rewrite Hsusp; eauto.
  - rewrite status_fail, decide_True by done. split; [eauto|done].
Qed.

Lemma launch_all_results tasks hs names : ∀ s,
  results (store (foldl (λ s name, launch tasks hs name s) s names))
  = results (store s).
Proof.
  induction names as [|name names IH]; intros s; [done|].
  simpl. by rewrite IH, results_launch.
Qed.

Lemma launch_all_status_other tasks hs names n : ∀ s,
  n ∉ names →
  status (foldl (λ s name, launch tasks hs name s) s names) !! n
  = status s !! n.
Proof.
  induction names as [|name names IH]; intros s Hn; [done|].
  simpl. rewrite IH by set_solver. apply status_launch. set_solver.
Qed.

Lemma launch_all_status tasks hs names n : ∀ s,
  NoDup names → n ∈ names →
  let s' := foldl (λ s name, launch tasks hs name s) s names in
  is_Some (status s' !! n)
  ∧ (∀ body, task_lookup tasks n = Some (Function false body) →
       ∃ c, status s' !! n = Some (Suspended c)).
Proof.
  induction names as [|name names IH]; intros s Hnd Hn;
    [by apply elem_of_nil in Hn|].
  apply NoDup_cons in Hnd as [Hname Hnd]. simpl.
  destruct (decide (n = name)) as [->|Hne].
  - rewrite launch_all_status_other by done. apply status_launch_self.
  - apply IH; [done|set_solver].
Qed.

(** * Tame bodies always settle *)

Lemma size_difference_grow (N V : gset string) (m : string) :
  m ∈ N → m ∉ V → size (N ∖ (V ∪ {[m]})) < size (N ∖ V).
Proof. intros Hm HmV. apply subset_size. set_solver. Qed.

Lemma size_difference_pos (N V : gset string) (m : string) :
  m ∈ N → m ∉ V → 0 < size (N ∖ V).
Proof.
  intros Hm HmV.
  destruct (decide (size (N ∖ V) = 0)) as [Hz|]; [|lia].
  apply size_empty_iff in Hz. set_solver.
Qed.

Lemma reach_evolves st st' x y :
  evolves st st' →
  reach (waitingFor st) x y → reach (waitingFor st') x y.
Proof.
  intros [_ Hedge]. induction 1 as [x|x y z Hxy _ IH]; [apply reach_refl|].
  eapply reach_step; [by apply Hedge|done].
Qed.

Lemma suspended_ok_evolves tasks st st' n c :
  evolves st st' → suspended_ok tasks st n c → suspended_ok tasks st' n c.
Proof.
  intros [Hheap Hedge]. destruct c as [v|e|dep k|p k|k|ready k]; try done.
  intros [Hk (d & ps & Hp & Hpend)]. split; [done|].
  destruct (Hheap _ _ _ Hp) as (ps' & Hp' & Hor).
  exists d, ps'. split; [done|]. intros ->.
  assert (ps = Pending) as Hps by (by destruct Hor).
  destruct (Hpend Hps) as [He Hd]. split; [by apply Hedge|done].
Qed.

(** The promise [waitForDep] hands out is for [depName]; it is pending
    only past the three checks, with the wait recorded. *)
Lemma waitForDep_promise tasks c d st :
  let r := waitForDep tasks c d st in
  ∃ ps, heap r.2 !! r.1 = Some (mkFuture d ps)
        ∧ (ps = Pending →
             in_tasks tasks d = true ∧ edge (waitingFor r.2) c d).
Proof.
  assert (∀ o st0, ∃ ps,
    heap (new_promise d (Settled o) st0).2 !! (new_promise d (Settled o) st0).1
      = Some (mkFuture d ps)
    ∧ (ps = Pending →
         in_tasks tasks d = true
         ∧ edge (waitingFor (new_promise d (Settled o) st0).2) c d)) as Hsettled.
  { intros o st0. exists (Settled o). split; [|done].
    rewrite new_promise_lookup. by rewrite decide_True. }
  unfold waitForDep. destruct (in_tasks tasks d) eqn:Hin; [|apply Hsettled].
  cbn [negb]. destruct (decide (c = d)); [apply Hsettled|].
  destruct (hasCyclePath (waitingFor st) d c); [apply Hsettled|].
  cbn zeta. set (st1 := record_wait c d st).
  destruct (results st1 !! d); [apply Hsettled|].
  destruct (errors st1 !! d); [apply Hsettled|].
  exists Pending. split.
  - cbn. rewrite heap_snoc_lookup. by rewrite decide_True.
  - intros _. split; [done|]. cbn. apply edge_recorded. by right.
Qed.

Lemma run_sync_tame tasks n c st :
  tame tasks c →
  suspended_ok tasks (run_sync tasks n c st).2 n (run_sync tasks n c st).1.
Proof.
  destruct 1 as [v|e|k Hk|dep k Hdep Hk]; try done.
  cbn [run_sync].
  pose proof (waitForDep_promise tasks n dep st) as (ps & Hp & Hpend).
  destruct (waitForDep tasks n dep st) as [p st1]. cbn in Hp, Hpend |- *.
  split; [done|]. exists dep, ps. split; [done|].
  intros Hps. destruct (Hpend Hps) as [Hin He]. split; [done|by apply Hdep].
Qed.

Lemma status_resume_self tasks name c s :
  status (resume tasks name c s) !! name
  = Some (Suspended (run_sync tasks name c (store s)).1).
Proof.
  unfold resume. destruct (run_sync tasks name c (store s)).
  simpl. by rewrite lookup_insert_eq.
Qed.

Lemma store_resume tasks name c s :
  store (resume tasks name c s) = (run_sync tasks name c (store s)).2.
Proof. unfold resume. by destruct (run_sync tasks name c (store s)). Qed.

Lemma waits_ok_resume tasks m c s :
  waits_ok tasks s → tame tasks c → waits_ok tasks (resume tasks m c s).
Proof.
  intros Hw Hc n cn Hn. destruct (decide (n = m)) as [->|Hne].
  - rewrite status_resume_self in Hn. injection Hn as <-.
    rewrite store_resume. by apply run_sync_tame.
  - rewrite status_resume_other in Hn by done.
    eapply suspended_ok_evolves; [apply evolves_resume|by apply Hw].
Qed.

Lemma waits_ok_settle tasks s s' m :
  evolves (store s) (store s') →
  (∀ n, status s' !! n =
          if decide (n = m) then Some Finished else status s !! n) →
  waits_ok tasks s → waits_ok tasks s'.
Proof.
  intros Hev Hst Hw n c Hn. rewrite Hst in Hn.
  case_decide; [done|].
  eapply suspended_ok_evolves; [done|by apply Hw].
Qed.

Lemma status_succeed hs name v s n :
  status (succeed hs name v s) !! n =
    if decide (n = name) then Some Finished else status s !! n.
Proof.
  unfold succeed. simpl. case_decide; subst;
    by rewrite ?lookup_insert_eq, ?lookup_insert_ne.
Qed.

Lemma waits_ok_succeed tasks hs m v s :
  waits_ok tasks s → waits_ok tasks (succeed hs m v s).
Proof.
  apply (waits_ok_settle tasks s _ m).
  - apply evolves_handleResult.
  - apply status_succeed.
Qed.

Lemma waits_ok_fail tasks hs m e s :
  waits_ok tasks s → waits_ok tasks (fail hs m e s).
Proof.
  apply (waits_ok_settle tasks s _ m).
  - apply evolves_fail.
  - apply status_fail.
Qed.

Lemma waits_ok_step tasks hs name s :
  waits_ok tasks s → waits_ok tasks (step tasks hs name s).
Proof.
  intros Hw. unfold step.
  destruct (status s !! name) as [[c|]|] eqn:Hname; try done.
  pose proof (Hw _ _ Hname) as Hok.
  destruct c as [v|e|dep k|p k|k|ready k]; try done.
  - by apply waits_ok_succeed.
  - by apply waits_ok_fail.
  - destruct Hok as [Hk _].
    destruct (heap (store s) !! p) as [[d [|o]]|]; try done.
    by apply waits_ok_resume.
  - by apply waits_ok_resume.
Qed.

Lemma waits_ok_launch tasks hs name s :
  tame_tasks tasks → waits_ok tasks s → waits_ok tasks (launch tasks hs name s).
Proof.
  intros Htame Hw. unfold launch.
  destruct (task_lookup tasks name) as [[v|sync body]|] eqn:Hlook;
    try by apply waits_ok_fail.
  set (s1 := mkSys (store s) (status s) (remaining s) (call s)
               (invoked s ++ [name]) (rejections s)).
  assert (waits_ok tasks s1) as Hw1 by exact Hw.
  assert (tame tasks body) as Hbody by (by eapply Htame).
  pose proof (waits_ok_resume tasks name body s1 Hw1 Hbody) as Hres.
  pose proof (evolves_run_sync tasks name body (store s)) as Hev.
  unfold resume in Hres. change (store s1) with (store s) in *.
  destruct (run_sync tasks name body (store s)) as [c st'].
  cbn [snd] in Hev.
  destruct c as [| e | | | |]; try exact Hres.
  destruct sync; [|exact Hres].
  apply (waits_ok_settle tasks s1 _ name).
  - eapply evolves_trans; [exact Hev|].
    apply (evolves_fail hs name e (with_store st' s1)).
  - intros n. by rewrite status_fail.
  - done.
Qed.

Lemma waits_ok_launch_all tasks hs names : ∀ s,
  tame_tasks tasks → waits_ok tasks s →
  waits_ok tasks (foldl (λ s name, launch tasks hs name s) s names).
Proof.
  induction names as [|name names IH]; intros s Htame Hw; [done|].
  simpl. apply IH; [done|]. by apply waits_ok_launch.
Qed.

Lemma status_total_step tasks hs name s n :
  is_Some (status s !! n) → is_Some (status (step tasks hs name s) !! n).
Proof.
  intros Hn. destruct (decide (n = name)) as [->|Hne];
    [|by rewrite status_step_other].
  unfold step. destruct (status s !! name) as [[c|]|] eqn:Hname; try done.
  destruct c as [v|e|dep k|p k|k|ready k];
    rewrite ?status_succeed, ?status_fail, ?status_resume_self,
      ?decide_True by done; try done.
  - destruct (heap (store s) !! p) as [[d [|o]]|];
      rewrite ?status_resume_self, ?Hname; done.
  - cbn zeta. case_match; rewrite ?status_resume_self, ?Hname; done.
Qed.

Lemma settled_count_resume tasks name c s :
  settled_count (store (resume tasks name c s)) = settled_count (store s).
Proof.
  rewrite store_resume. unfold settled_count.
  pose proof (run_sync_frame tasks name c (store s)) as (-> & -> & _). done.
Qed.

Lemma settled_count_succeed hs name v s :
  stored_outcome (store s) name = None →
  settled_count (store (succeed hs name v s))
  = S (settled_count (store s)).
Proof.
  intros [Hres _]%stored_outcome_None. unfold settled_count. simpl.
  by rewrite map_size_insert_None.
Qed.

Lemma settled_count_fail hs name e s :
  stored_outcome (store s) name = None →
  settled_count (store (fail hs name e s))
  = S (settled_count (store s)).
Proof.
  intros [_ Herr]%stored_outcome_None. unfold settled_count, fail.
  destruct hs; simpl; rewrite map_size_insert_None by done; lia.
Qed.

Lemma find_suspended (s : sys) (l : list string) :
  (∀ n, n ∈ l → is_Some (status s !! n)) →
  (∀ n, n ∈ l → status s !! n = Some Finished)
  ∨ ∃ n c, n ∈ l ∧ status s !! n = Some (Suspended c).
Proof.
  induction l as [|x l IH]; intros Htotal.
  - left. by intros n ?%elem_of_nil.
  - destruct (Htotal x) as [[c|] Hx]; [by left| |].
    + right. exists x, c. split; [by left|done].
    + destruct IH as [Hall|(n & c & Hn & Hc)].
      * intros n Hn. apply Htotal. by right.
      * left. intros n [->|Hn]%elem_of_cons; [done|by apply Hall].
      * right. exists n, c. split; [by right|done].
Qed.

Section Completion.
Variables (tasks : task_set) (hs : bool).
Hypothesis Hnodup : NoDup (taskNames tasks).

Lemma live_step name s : live tasks hs s → live tasks hs (step tasks hs name s).
Proof using Hnodup.
  intros (Hinv & Htotal & Hw). split; [by apply sys_inv_step|]. split.
  - intros n Hn. by apply status_total_step, Htotal.
  - by apply waits_ok_step.
Qed.

Lemma live_run schedule : ∀ s,
  live tasks hs s → live tasks hs (run tasks hs schedule s).
Proof using Hnodup.
  induction schedule as [|name schedule IH]; intros s Hlive; [done|].
  simpl. by apply IH, live_step.
Qed.

Lemma live_execute :
  tame_tasks tasks → live tasks hs (executeTasksInternal tasks hs).
Proof using Hnodup.
  intros Htame. split; [by apply sys_inv_execute|]. split.
  - intros n Hn. unfold executeTasksInternal. by apply launch_all_status.
  - unfold executeTasksInternal.
    assert (waits_ok tasks (init_sys tasks)) as Hinit.
    { intros n c Hn. simpl in Hn. by rewrite lookup_empty in Hn. }
    by apply waits_ok_launch_all.
Qed.

Lemma completable_step name s :
  completable tasks hs (step tasks hs name s) → completable tasks hs s.
Proof. intros [later Hall]. by exists (name :: later). Qed.

Lemma live_unsettled s m c :
  live tasks hs s → status s !! m = Some (Suspended c) →
  m ∈ taskNames tasks ∧ stored_outcome (store s) m = None
  ∧ settled_count (store s) < length (taskNames tasks).
Proof using Hnodup.
  intros (Hinv & _ & _) Hm.
  assert (m ∈ taskNames tasks) as Hin.
  { destruct Hinv as [_ _ si_status_dom _ _ _ _ _]. by eapply si_status_dom. }
  assert (stored_outcome (store s) m = None) as Hnone.
  { eapply sys_inv_unsettled; [done|done|]. by rewrite Hm. }
  split; [done|]. split; [done|].
  apply (unsettled_count (taskNames tasks) (store s) m); try done.
  - intros n. apply (sys_inv_settled_declared tasks hs _ s n Hinv).
  - by destruct Hinv as [[inv_disjoint _ _ _ _ _] _ _ _ _ _ _ _].
Qed.

(** A pending promise is for a task whose wrapper is still suspended. *)
Lemma pending_target_suspended s p d :
  live tasks hs s →
  heap (store s) !! p = Some (mkFuture d Pending) → d ∈ taskNames tasks →
  ∃ c, status s !! d = Some (Suspended c).
Proof using Hnodup.
  intros (Hinv & Htotal & _) Hp Hd.
  pose proof Hinv as
    [[_ _ _ inv_queue inv_pending _] _ _ si_finished _ _ _ _].
  destruct (inv_pending _ _ Hp) as (q & Hq & Hpq).
  pose proof (inv_queue _ _ _ Hq Hpq) as Hp'.
  rewrite Hp in Hp'. injection Hp' as Hexp.
  destruct (Htotal d Hd) as [[c|] Hst]; [by exists c|].
  apply si_finished in Hst as [o Ho].
  unfold expected in Hexp. by rewrite Ho in Hexp.
Qed.

Section Search.
Variable u : nat.
Hypothesis Hless : ∀ s, live tasks hs s → within tasks u s →
  completable tasks hs s.

Lemma finish_value s m v :
  live tasks hs s → within tasks (S u) s →
  status s !! m = Some (Suspended (Return v)) → completable tasks hs s.
Proof using Hnodup Hless.
  intros Hlive Hwithin Hm. apply (completable_step m). apply Hless.
  - by apply live_step.
  - destruct (live_unsettled s m _ Hlive Hm) as (_ & Hnone & _).
    unfold step. rewrite Hm. unfold within in *.
    rewrite settled_count_succeed by done. lia.
Qed.

Lemma finish_error s m e :
  live tasks hs s → within tasks (S u) s →
  status s !! m = Some (Suspended (Throw e)) → completable tasks hs s.
Proof using Hnodup Hless.
  intros Hlive Hwithin Hm. apply (completable_step m). apply Hless.
  - by apply live_step.
  - destruct (live_unsettled s m _ Hlive Hm) as (_ & Hnone & _).
    unfold step. rewrite Hm. unfold within in *.
    rewrite settled_count_fail by done. lia.
Qed.

Lemma chain_to_resume s V m c :
  chain_to s V m → chain_to (resume tasks m c s) V m.
Proof.
  intros [Hm Hreach]. split; [done|]. intros v Hv.
  eapply reach_evolves; [apply evolves_resume|by apply Hreach].
Qed.

Section Await.
Variables (j : nat).
Hypothesis Hdeeper : ∀ V m s c,
  live tasks hs s → within tasks (S u) s →
  size (list_to_set (C := gset string) (taskNames tasks) ∖ V) ≤ j →
  m ∈ taskNames tasks → chain_to s V m →
  status s !! m = Some (Suspended c) → completable tasks hs s.

Lemma await_case V m s p k :
  (∀ o s0, live tasks hs (resume tasks m (k o) s0) →
     within tasks (S u) (resume tasks m (k o) s0) →
     chain_to (resume tasks m (k o) s0) V m →
     completable tasks hs (resume tasks m (k o) s0)) →
  live tasks hs s → within tasks (S u) s →
  size (list_to_set (C := gset string) (taskNames tasks) ∖ V) ≤ S j →
  m ∈ taskNames tasks → chain_to s V m →
  status s !! m = Some (Suspended (Await p k)) → completable tasks hs s.
Proof using Hnodup Hdeeper.
  intros Hcont Hlive Hwithin Hsize Hm Hchain Hst.
  pose proof Hlive as (Hinv & Htotal & Hw).
  destruct (Hw _ _ Hst) as [Hk (d & ps & Hp & Hpend)].
  destruct ps as [|o].
  - destruct (Hpend eq_refl) as [Hedge Hd].
    destruct (pending_target_suspended s p d Hlive Hp Hd) as [cd Hcd].
    destruct Hchain as [HmV Hreach].
    assert (acyclic (waitingFor (store s))) as Hacyclic.
    { by destruct Hinv as [[_ _ inv_acyclic _ _ _] _ _ _ _ _ _ _]. }
    apply (Hdeeper (V ∪ {[m]}) d s cd); try done.
    + pose proof (size_difference_grow
                    (list_to_set (taskNames tasks)) V m) as Hlt.
      rewrite elem_of_list_to_set in Hlt. specialize (Hlt Hm HmV). lia.
    + split.
      * intros [Hd'|Hd']%elem_of_union.
        -- by apply (Hacyclic m d Hedge), Hreach.
        -- apply elem_of_singleton in Hd' as ->.
           apply (Hacyclic m m Hedge), reach_refl.
      * intros v [Hv|Hv]%elem_of_union.
        -- eapply reach_trans; [by apply Hreach|].
           eapply reach_step; [done|apply reach_refl].
        -- apply elem_of_singleton in Hv as ->.
           eapply reach_step; [done|apply reach_refl].
  - apply (completable_step m).
    pose proof (live_step m s Hlive) as Hlive'.
    unfold step in Hlive' |- *. rewrite Hst, Hp in Hlive' |- *.
    apply Hcont; [done| |by apply chain_to_resume].
    unfold within in *. by rewrite settled_count_resume.
Qed.

Lemma drive V m :
  size (list_to_set (C := gset string) (taskNames tasks) ∖ V) ≤ S j →
  m ∈ taskNames tasks →
  ∀ c, tame tasks c → ∀ s0,
    live tasks hs (resume tasks m c s0) →
    within tasks (S u) (resume tasks m c s0) →
    chain_to (resume tasks m c s0) V m →
    completable tasks hs (resume tasks m c s0).
Proof using Hnodup Hless Hdeeper.
  intros Hsize Hm c Hc.
  induction Hc as [v|e|k Hk IH|dep k Hdep Hk IH];
    intros s0 Hlive Hwithin Hchain.
  - pose proof (status_resume_self tasks m (Return v) s0) as Hst.
    exact (finish_value _ m v Hlive Hwithin Hst).
  - pose proof (status_resume_self tasks m (Throw e) s0) as Hst.
    exact (finish_error _ m e Hlive Hwithin Hst).
  - pose proof (status_resume_self tasks m (Pause k) s0) as Hst.
    set (s := resume tasks m (Pause k) s0) in *. cbn [run_sync fst] in Hst.
    apply (completable_step m).
    pose proof (live_step m s Hlive) as Hlive'.
    unfold step in Hlive' |- *. rewrite Hst in Hlive' |- *.
    apply IH; [done| |by apply chain_to_resume].
    unfold within in *. by rewrite settled_count_resume.
  - pose proof (status_resume_self tasks m (Access dep (λ p, Await p k)) s0)
      as Hst.
    set (s := resume tasks m (Access dep (λ p, Await p k)) s0) in *.
    cbn [run_sync] in Hst.
    destruct (waitForDep tasks m dep (store s0)) as [p st1].
    cbn [run_sync fst] in Hst.
    by apply (await_case V m s p k).
Qed.
End Await.

Lemma search : ∀ j V m s c,
  live tasks hs s → within tasks (S u) s →
  size (list_to_set (C := gset string) (taskNames tasks) ∖ V) ≤ j →
  m ∈ taskNames tasks → chain_to s V m →
  status s !! m = Some (Suspended c) → completable tasks hs s.
Proof using Hnodup Hless.
  induction j as [|j IH]; intros V m s c Hlive Hwithin Hsize Hm Hchain Hst.
  - exfalso. destruct Hchain as [HmV _].
    pose proof (size_difference_pos
                  (list_to_set (taskNames tasks)) V m) as Hpos.
    rewrite elem_of_list_to_set in Hpos. specialize (Hpos Hm HmV). lia.
  - pose proof Hlive as (_ & _ & Hw). pose proof (Hw _ _ Hst) as Hok.
    destruct c as [v|e|dep k|p k|k|ready k]; try done.
    + exact (finish_value s m v Hlive Hwithin Hst).
    + exact (finish_error s m e Hlive Hwithin Hst).
    + destruct Hok as [Hk _].
      apply (await_case j IH V m s p k); try done.
      intros o. by apply (drive j IH V m).
    + apply (completable_step m).
      pose proof (live_step m s Hlive) as Hlive'.
      unfold step in Hlive' |- *. rewrite Hst in Hlive' |- *.
      apply (drive j IH V m); [done|done|done|done| |by apply chain_to_resume].
      unfold within in *. by rewrite settled_count_resume.
Qed.
End Search.

Lemma complete_within : ∀ u s,
  live tasks hs s → within tasks u s → completable tasks hs s.
Proof using Hnodup.
  induction u as [|u IH]; intros s Hlive Hwithin;
    pose proof Hlive as (_ & Htotal & _);
    destruct (find_suspended s (taskNames tasks) Htotal)
      as [Hall|(m & c & Hm & Hst)];
    try by exists [].
  - destruct (live_unsettled s m c Hlive Hst) as (_ & _ & Hlt).
    unfold within in Hwithin. lia.
  - apply (search u IH (size (list_to_set (C := gset string) (taskNames tasks)))
             ∅ m s c); try done.
    apply subseteq_size. set_solver.
Qed.

Lemma settled_call s :
  sys_inv tasks hs (taskNames tasks) s →
  all_settled tasks s →
  call s = CallResolved (returnValue (store s))
  ∨ (∃ e, call s = CallRejected e)
  ∨ (hs = false ∧ call s = CallAdopts (returnValue (store s))
     ∧ ∃ a, results (store s) !! "then" = Some (VFunction a)).
Proof using Hnodup.
  intros Hinv Hall. destruct hs.
  - destruct (allSettled_call tasks s Hnodup Hinv) as [_ Hres].
    left. by apply Hres.
  - destruct (all_call tasks s Hnodup Hinv) as [Hrej Hres].
    destruct (map_choose_or_empty (errors (store s)))
      as [(n & e & Hne)|Hempty].
    + destruct (Hrej n e Hne) as (n0 & e0 & rest & _ & _ & ->).
      right. left. by exists e0.
    + destruct Hres as [Hcall Hrv].
      { intros n Hn.
        pose proof (proj1 (all_settled_stored tasks false s Hinv) Hall)
          as Hstored.
        destruct (Hstored n Hn) as [o Ho]. unfold stored_outcome in Ho.
        destruct (results (store s) !! n); [done|].
        by rewrite Hempty, lookup_empty in Ho. }
      rewrite Hcall. unfold resolve_call.
      destruct (is_thenable (returnValue (store s))) eqn:Hthen; [|by left].
      right. right. split; [done|]. split; [done|].
      unfold is_thenable in Hthen. rewrite Hrv, own_object_of in Hthen.
      rewrite decide_False in Hthen by done.
      destruct (results (store s) !! "then") as [[]|]; try done. eauto.
Qed.
End Completion.

(** Tame bodies: whatever has been resumed so far, some continuation of
    the run settles every task. *)
Lemma tame_complete tasks (hs : bool) schedule :
  NoDup (taskNames tasks) → tame_tasks tasks →
  ∃ later,
    all_settled tasks
      (run tasks hs (schedule ++ later) (executeTasksInternal tasks hs)).
Proof.
  intros Hnodup Htame.
  set (s0 := run tasks hs schedule (executeTasksInternal tasks hs)).
  assert (live tasks hs s0) as Hlive.
  { by apply live_run, live_execute. }
  destruct (complete_within tasks hs Hnodup
              (length (taskNames tasks)) s0 Hlive) as [later Hall].
  { unfold within. lia. }
  exists later. unfold run in *. by rewrite foldl_app.
Qed.

(** * Settlement, as the waiters see it *)

(** Resuming a wrapper whose body has come to its end settles the task
    with the outcome of the body and settles, with that outcome, exactly
    the promises that were pending for the task. *)
Lemma step_settles tasks (hs : bool) L s d c o :
  sys_inv tasks hs L s →
  status s !! d = Some (Suspended c) → ending c = Some o →
  let s' := step tasks hs d s in
  stored_outcome (store s') d = Some o
  ∧ status s' !! d = Some Finished
  ∧ ∀ i, heap (store s') !! i =
      match heap (store s) !! i with
      | Some (mkFuture t Pending) =>
          if decide (t = d) then Some (mkFuture t (Settled o))
          else Some (mkFuture t Pending)
      | x => x
      end.
Proof.
  intros Hinv Hst Hend s'. subst s'. unfold step. rewrite Hst.
  assert (d ∈ L) as Hd.
  { destruct Hinv as [_ _ si_status_dom _ _ _ _ _]. by eapply si_status_dom. }
  assert (stored_outcome (store s) d = None) as Hfresh.
  { eapply sys_inv_unsettled; [done|done|]. by rewrite Hst. }
  assert (store_inv L (store s)) as Hstore by (by destruct Hinv).
  destruct c as [v|e| | | |]; try done; injection Hend as <-.
  - split; [|split].
    + by rewrite stored_outcome_succeed, decide_True.
    + by rewrite status_succeed, decide_True.
    + intros i. unfold succeed. cbn [store heap wrapper_fulfilled with_status
        with_store handleResult]. by apply (notify_waiters_lookup L).
  - apply stored_outcome_None in Hfresh as Hnone. destruct Hnone as [Hres _].
    split; [|split].
    + by rewrite stored_outcome_fail, decide_True.
    + by rewrite status_fail, decide_True.
    + intros i. unfold fail.
      destruct hs; cbn [store heap wrapper_fulfilled wrapper_rejected
        with_status with_store handleError];
        by apply (notify_waiters_lookup L).
Qed.


(** * The mapping handed to the caller *)

(** A resolved call holds [returnValue]. *)
Lemma call_resolved_mapping tasks (hs : bool) L s mapping :
  sys_inv tasks hs L s →
  call s = CallResolved mapping → mapping = returnValue (store s).
Proof.
  intros [_ _ _ _ _ _ _ si_call]. rewrite si_call.
  unfold expected_call, resolve_call.
  destruct (rejections s) as [|[n e] rest]; [|done].
  case_decide; [|done].
  destruct (is_thenable (returnValue (store s))); [done|]. by intros [= <-].
Qed.

(** [returnValue] never has an own property [__proto__]. *)
Lemma own_proto_key tasks (hs : bool) L s :
  sys_inv tasks hs L s → own (returnValue (store s)) !! "__proto__" = None.
Proof.
  intros [_ _ _ _ -> _ _ _]. unfold expected_returnValue.
  by rewrite own_object_of, decide_True.
Qed.

(** * The claims *)



(** C2, as stated, fails.  With [b] waiting for [c] and [c] for [a], the
    access of [b] by [a] is rejected with the message
    [Circular dependency detected: a → b → c → a → a]; no
    [targetName → caller], here [b → a], occurs in it, so it is not of
    the form [caller → … → targetName → caller]. *)
Lemma cycle_message_not_as_claimed :
  let s := all tasks_cycle3 in
  let r := waitForDep tasks_cycle3 "a" "b" (store s) in
  reach (wait_graph s) "b" "a"
  ∧ ∃ msg,
      heap r.2 !! r.1 = Some (mkFuture "b" (Settled (Rejected (VError msg))))
      ∧ ¬ claimed_cycle_message "a" "b" msg.
Proof.
  intros s r. split.
  { apply hasCyclePath_reach. by vm_compute. }
  exists "Circular dependency detected: a → b → c → a → a". split.
  { by vm_compute. }
  intros Hclaimed%claimed_cycle_message_hop. by vm_compute in Hclaimed.
Qed.

(** C2, amended.  For both entry points, under every schedule and for
    every task [c]: an access [get(t)] with [t = c], or with [t] already
    reaching [c] through recorded WaitEdges, returns a fresh promise that
    is already rejected and changes nothing else in the store, so no
    WaitEdge is recorded.  The reason is a plain error whose message is
    [Circular dependency detected: c → c] in the first case and, in the
    second, begins with [Circular dependency detected: c → ] followed by
    the arrow-joined chain of recorded WaitEdges that leads from [t] to
    [c]. *)
Theorem cycle_closing_access_rejected tasks (handleSettled : bool) schedule c t :
  NoDup (taskNames tasks) →
  let s := run tasks handleSettled schedule
             (if handleSettled then allSettled tasks else all tasks) in
  c ∈ taskNames tasks →
  t = c ∨ reach (wait_graph s) t c →
  ∃ msg,
    waitForDep tasks c t (store s) =
      new_promise t (Settled (Rejected (VError msg))) (store s)
    ∧ waitingFor (waitForDep tasks c t (store s)).2 = wait_graph s
    ∧ (t = c → msg = circular_prefix +:+ c +:+ " → " +:+ c)
    ∧ (t ≠ c →
         ∃ chain rest,
           is_chain (wait_graph s) (t :: chain)
           ∧ last (t :: chain) = Some c
           ∧ msg = circular_prefix +:+ c +:+ " → "
                     +:+ join_arrow (t :: chain) +:+ rest).
Proof.
  intros Hnodup s Hc Hcycle. subst s. rewrite execute_entry in *.
  set (s := run _ _ _ _) in *.
  assert (sys_inv tasks handleSettled (taskNames tasks) s) as Hinv.
  { by apply sys_inv_run, sys_inv_execute. }
  destruct (decide (t = c)) as [->|Hne].
  { exists (circular_prefix +:+ c +:+ " → " +:+ c).
    rewrite waitForDep_self by (by apply in_tasks_declared). done. }
  destruct Hcycle as [?|Hreach]; [done|].
  assert (in_tasks tasks t = true) as Hin.
  { apply in_tasks_declared. destruct Hreach as [|t y c Hty _]; [done|].
    destruct Hinv as [Hstore _ _ _ _ _ _ _].
    apply (inv_wait_dom _ _ Hstore). apply edge_lookup in Hty as (ds & Hds & _).
    by exists ds. }
  exists (cycle_message c (buildCyclePath (wait_graph s) t c)).
  rewrite waitForDep_cycle by done. split; [done|]. split; [done|].
  split; [done|]. intros _.
  destruct (buildCyclePath_path_chain (wait_graph s) t c Hreach)
    as (chain & Hpath & Hchain & Hlast).
  exists chain, (" → " +:+ c). split; [done|]. split; [done|].
  unfold cycle_message, buildCyclePath. by rewrite Hpath.
Qed.

Lemma cycle_closing_access_rejected_witness :
  let s := run tasks_cycle3 false [] (all tasks_cycle3) in
  ∃ msg,
    waitForDep tasks_cycle3 "a" "b" (store s) =
      new_promise "b" (Settled (Rejected (VError msg))) (store s)
    ∧ waitingFor (waitForDep tasks_cycle3 "a" "b" (store s)).2 = wait_graph s
    ∧ ("b" = "a" → msg = circular_prefix +:+ "a" +:+ " → " +:+ "a")
    ∧ ("b" ≠ "a" →
         ∃ chain rest,
           is_chain (wait_graph s) ("b" :: chain)
           ∧ last ("b" :: chain) = Some "a"
           ∧ msg = circular_prefix +:+ "a" +:+ " → "
                     +:+ join_arrow ("b" :: chain) +:+ rest).
Proof.
  apply (cycle_closing_access_rejected tasks_cycle3 false [] "a" "b").
  - nodup_by_computation.
  - apply (bool_decide_unpack _). vm_compute. exact I.
  - right. apply hasCyclePath_reach. vm_compute. reflexivity.
Defined.

(** C3, at the failing input.  In
    [all({ ['__proto__']() { return 1 }, async b() { return 2 } })]
    both tasks fulfil and [1] is stored in [results] for [__proto__],
    yet the mapping the call resolves to is [{ b: 2 }]: the assignment
    [returnValue['__proto__'] = 1] reaches the setter inherited from
    [Object.prototype] and creates no property; under no schedule does a
    mapping with that key come out.  And in [all({ then() { return f } })]
    with [f] a function, the mapping has a callable [then]: the returned
    promise is not fulfilled with it but follows it as a thenable. *)
Theorem proto_task_missing_from_all :
  let s := run tasks_proto false ["__proto__"; "b"] (all tasks_proto) in
  let t := run tasks_then false ["then"] (all tasks_then) in
  all_fulfilled tasks_proto s
  ∧ results (store s) !! "__proto__" = Some (VNum 1)
  ∧ call s = CallResolved (mkObject {[ "b" := VNum 2 ]} None)
  ∧ (∀ schedule mapping,
       call (run tasks_proto false schedule (all tasks_proto))
         = CallResolved mapping →
       own mapping !! "__proto__" = None)
  ∧ all_fulfilled tasks_then t
  ∧ call t = CallAdopts (mkObject {[ "then" := VFunction 0 ]} None).
Proof.
  cbn zeta. split; [|split; [|split; [|split; [|split]]]].
  - apply all_fulfilled_check. vm_compute. reflexivity.
  - vm_compute. reflexivity.
  - vm_compute. reflexivity.
  - intros schedule mapping Hcall.
    assert (sys_inv tasks_proto false (taskNames tasks_proto)
              (run tasks_proto false schedule (all tasks_proto))) as Hinv.
    { apply sys_inv_run; [nodup_by_computation|].
      apply sys_inv_execute. nodup_by_computation. }
    rewrite (call_resolved_mapping _ _ _ _ _ Hinv Hcall).
    by eapply own_proto_key.
  - apply all_fulfilled_check. vm_compute. reflexivity.
  - vm_compute. reflexivity.
Qed.

(** C4, at the failing input.  In
    [allSettled({ ['__proto__']() { return 1 }, async b() { return 2 } })]
    both tasks settle, yet the mapping the call resolves to has the one
    entry [b]: the descriptor of [__proto__] is an object, so the
    inherited setter makes it the prototype of the mapping instead of an
    entry of it; under no schedule does a mapping with that key come
    out. *)
Theorem proto_task_missing_from_allSettled :
  let s := run tasks_proto true ["__proto__"; "b"] (allSettled tasks_proto) in
  all_settled tasks_proto s
  ∧ stored_outcome (store s) "__proto__" = Some (Fulfilled (VNum 1))
  ∧ call s = CallResolved
               (mkObject {[ "b" := VFulfilled (VNum 2) ]}
                         (Some (VFulfilled (VNum 1))))
  ∧ (∀ schedule mapping,
       call (run tasks_proto true schedule (allSettled tasks_proto))
         = CallResolved mapping →
       own mapping !! "__proto__" = None).
Proof.
  cbn zeta. split; [|split; [|split]].
  - intros n Hn. cbn in Hn.
    repeat (apply elem_of_cons in Hn as [-> | Hn]; [vm_compute; reflexivity|]).
    by apply elem_of_nil in Hn.
  - vm_compute. reflexivity.
  - vm_compute. reflexivity.
  - intros schedule mapping Hcall.
    assert (sys_inv tasks_proto true (taskNames tasks_proto)
              (run tasks_proto true schedule (allSettled tasks_proto)))
      as Hinv.
    { apply sys_inv_run; [nodup_by_computation|].
      apply sys_inv_execute. nodup_by_computation. }
    rewrite (call_resolved_mapping _ _ _ _ _ Hinv Hcall).
    by eapply own_proto_key.
Qed.

(** C5.  For both entry points and under every schedule: the wait graph
    is acyclic; an edge that is in it stays in it for the rest of the
    run; and an access that the handle rejects itself (a target that
    fails the [in] test, the caller itself, or a target that already
    reaches the caller, the last two being the edges that would complete
    a cycle) leaves the graph as it was. *)
Theorem wait_graph_grows_acyclic tasks (handleSettled : bool) schedule :
  let s := run tasks handleSettled schedule
             (if handleSettled then allSettled tasks else all tasks) in
  acyclic (wait_graph s)
  ∧ (∀ later x y, edge (wait_graph s) x y →
       edge (wait_graph (run tasks handleSettled later s)) x y)
  ∧ (∀ c d,
       in_tasks tasks d = false ∨ c = d ∨ reach (wait_graph s) d c →
       waitingFor (waitForDep tasks c d (store s)).2 = wait_graph s).
Proof.
  intros s. subst s. rewrite execute_entry. split; [|split].
  - apply (kept_run acyclic).
    { intros g c d. apply acyclic_recorded. }
    apply (kept_execute acyclic); [|apply acyclic_empty].
    intros g c d. apply acyclic_recorded.
  - intros later x y Hxy.
    apply (kept_run (λ g, edge g x y)); [|done].
    intros g c d Hg _. apply edge_recorded. by left.
  - intros c d Hcd. unfold waitForDep, wait_graph.
    destruct (in_tasks tasks d); [|done]. simpl.
    destruct (decide (c = d)) as [->|Hne]; [done|].
    destruct Hcd as [?|[->|Hreach]]; [done..|].
    apply hasCyclePath_reach in Hreach. unfold wait_graph in Hreach.
    by rewrite Hreach.
Qed.

Lemma wait_graph_grows_acyclic_witness :
  let s := run tasks_cycle3 false ["a"] (all tasks_cycle3) in
  acyclic (wait_graph s)
  ∧ (∀ later x y, edge (wait_graph s) x y →
       edge (wait_graph (run tasks_cycle3 false later s)) x y)
  ∧ (∀ c d,
       in_tasks tasks_cycle3 d = false ∨ c = d ∨ reach (wait_graph s) d c →
       waitingFor (waitForDep tasks_cycle3 c d (store s)).2 = wait_graph s).
Proof. apply (wait_graph_grows_acyclic tasks_cycle3 false ["a"]). Defined.



(** C7, at the failing input.  [toString] is no task of
    [{ async a() { return await this.$.toString } }], yet the access is
    not rejected: [in] finds the name on the prototype, a WaitEdge
    [a → toString] is recorded, the promise returned is pending, and
    under every schedule [a] stays suspended on it and the call stays
    pending. *)
Theorem inherited_name_not_rejected :
  let r := waitForDep tasks_inherited "a" "toString" init_state in
  ("toString" ∉ taskNames tasks_inherited)
  ∧ heap r.2 !! r.1 = Some (mkFuture "toString" Pending)
  ∧ edge (waitingFor r.2) "a" "toString"
  ∧ ∀ (handleSettled : bool) schedule,
      let s := run tasks_inherited handleSettled schedule
                 (executeTasksInternal tasks_inherited handleSettled) in
      status s !! "a" = Some (Suspended (Await 0 (rethrow Return)))
      ∧ call s = CallPending.
Proof.
  intros r. split; [|split; [|split]].
  - intros Hin. apply (bool_decide_pack _) in Hin. by vm_compute in Hin.
  - by vm_compute.
  - unfold edge. apply (bool_decide_unpack _). by vm_compute.
  - intros hs schedule.
    assert (∀ s0, s0 = executeTasksInternal tasks_inherited hs →
              ∀ name, step tasks_inherited hs name s0 = s0) as Hstuck.
    { intros s0 -> name. unfold step.
      destruct (decide (name = "a")) as [->|Hne].
      - by destruct hs.
      - replace (status (executeTasksInternal tasks_inherited hs) !! name)
          with (@None tstatus); [done|].
        destruct hs; symmetry; by apply lookup_insert_None. }
    assert (run tasks_inherited hs schedule
              (executeTasksInternal tasks_inherited hs)
            = executeTasksInternal tasks_inherited hs) as ->.
    { induction schedule as [|name schedule IH]; [done|].
      simpl. by rewrite (Hstuck _ eq_refl). }
    by destruct hs.
Qed.



(** C9, at the failing inputs.  In
    [{ ['__proto__']() { return 1 }, async b() { return 2 } }] every
    task fulfils and both entry points resolve, but neither mapping has
    an entry for [__proto__]: fail-fast dropped the value [1], and
    settle-all made the descriptor of [1] the prototype of its mapping.
    In [{ then() { return f } }], with [f] a function, the one task
    fulfils and settle-all resolves with [{ then: { status:
    'fulfilled', value: f } }], while fail-fast is not fulfilled with a
    mapping at all: its promise follows [{ then: f }] as a thenable. *)
Theorem plain_object_breaks_correspondence :
  let sA := run tasks_proto false ["__proto__"; "b"] (all tasks_proto) in
  let sS := run tasks_proto true ["__proto__"; "b"] (allSettled tasks_proto) in
  let tA := run tasks_then false ["then"] (all tasks_then) in
  let tS := run tasks_then true ["then"] (allSettled tasks_then) in
  (all_fulfilled tasks_proto sA
   ∧ ∃ mA mS, call sA = CallResolved mA ∧ call sS = CallResolved mS
       ∧ own mA !! "__proto__" = None ∧ proto mA = None
       ∧ own mS !! "__proto__" = None
       ∧ proto mS = Some (VFulfilled (VNum 1))
       ∧ own mA !! "b" = Some (VNum 2)
       ∧ own mS !! "b" = Some (VFulfilled (VNum 2)))
  ∧ (all_fulfilled tasks_then tA
     ∧ (∀ mapping, call tA ≠ CallResolved mapping)
     ∧ call tA = CallAdopts (mkObject {[ "then" := VFunction 0 ]} None)
     ∧ call tS = CallResolved
                   (mkObject {[ "then" := VFulfilled (VFunction 0) ]} None)).
Proof.
  cbn zeta. split.
  - split; [apply all_fulfilled_check; vm_compute; reflexivity|].
    eexists _, _. split; [vm_compute; reflexivity|].
    split; [vm_compute; reflexivity|].
    repeat split; vm_compute; reflexivity.
  - split; [apply all_fulfilled_check; vm_compute; reflexivity|].
    assert (call (run tasks_then false ["then"] (all tasks_then))
            = CallAdopts (mkObject {[ "then" := VFunction 0 ]} None)) as Hcall.
    { vm_compute. reflexivity. }
    split; [by rewrite Hcall|]. split; [done|]. vm_compute. reflexivity.
Qed.

(** C10.  Every error the executor builds is a plain [Error], told from
    the others by its message only.  An access whose target fails the
    [in] test is rejected with [Unknown task "<name>"]; a self-access
    and a cycle-closing access are both rejected with a message that
    begins with [Circular dependency detected: ]; any other access
    builds no error, its promise is in the state the store dictates; and
    an entry that is no function is settled with
    [Task "<name>" is not a function]. *)
Theorem executor_errors_are_plain tasks (handleSettled : bool) c d st s name :
  (in_tasks tasks d = false →
     waitForDep tasks c d st =
       new_promise d
         (Settled (Rejected (VError
            ("Unknown task " +:+ dquote +:+ d +:+ dquote)))) st)
  ∧ (in_tasks tasks d = true → c = d →
       waitForDep tasks c d st =
         new_promise d
           (Settled (Rejected (VError
              ("Circular dependency detected: " +:+ c +:+ " → " +:+ d)))) st)
  ∧ (in_tasks tasks d = true → c ≠ d → reach (waitingFor st) d c →
       ∃ rest,
         waitForDep tasks c d st =
           new_promise d
             (Settled (Rejected (VError
                ("Circular dependency detected: " +:+ rest)))) st)
  ∧ (in_tasks tasks d = true → c ≠ d → ¬ reach (waitingFor st) d c →
       let r := waitForDep tasks c d st in
       heap r.2 !! r.1 = Some (mkFuture d (expected st d)))
  ∧ (callable tasks name = false →
       errors (store (launch tasks handleSettled name s)) !! name =
         Some (VError ("Task " +:+ dquote +:+ name +:+ dquote
                         +:+ " is not a function"))).
Proof.
  split; [|split; [|split; [|split]]].
  - apply waitForDep_unknown.
  - intros Hin ->. by apply waitForDep_self.
  - intros Hin Hne Hreach.
    exists (c +:+ " → " +:+ buildCyclePath (waitingFor st) d c +:+ " → " +:+ c).
    by apply waitForDep_cycle.
  - intros Hin Hne Hreach. by apply waitForDep_proceed.
  - intros Hnc. unfold launch, callable in *.
    destruct (task_lookup tasks name) as [[v|sync body]|]; [|done|];
      unfold fail; destruct handleSettled; simpl; apply lookup_insert_eq.
Qed.

Lemma executor_errors_are_plain_witness :
  waitForDep tasks_abc "c" "zzz" init_state =
    new_promise "zzz"
      (Settled (Rejected (VError
         ("Unknown task " +:+ dquote +:+ "zzz" +:+ dquote)))) init_state
  ∧ waitForDep tasks_abc "c" "c" init_state =
      new_promise "c"
        (Settled (Rejected (VError
           ("Circular dependency detected: " +:+ "c" +:+ " → " +:+ "c"))))
        init_state
  ∧ errors (store (launch tasks_not_function false "a"
                     (init_sys tasks_not_function))) !! "a" =
      Some (VError ("Task " +:+ dquote +:+ "a" +:+ dquote
                      +:+ " is not a function")).
Proof.
  destruct (executor_errors_are_plain tasks_abc false "c" "zzz" init_state
              (init_sys tasks_abc) "a") as (Hunknown & _).
  destruct (executor_errors_are_plain tasks_abc false "c" "c" init_state
              (init_sys tasks_abc) "a") as (_ & Hself & _).
  destruct (executor_errors_are_plain tasks_not_function false "c" "c"
              init_state (init_sys tasks_not_function) "a")
    as (_ & _ & _ & _ & Hlaunch).
  split; [|split].
  - apply Hunknown. reflexivity.
  - apply Hself; reflexivity.
  - apply Hlaunch. reflexivity.
Defined.





(** X3.  When the call returns, and ever after, the bodies that were
    entered are those of the callable entries, each once, in key order:
    an entry that is no function, or a body that throws at once, stops
    no later launch. *)
Theorem bodies_entered_in_key_order tasks (handleSettled : bool) schedule :
  invoked (run tasks handleSettled schedule
             (executeTasksInternal tasks handleSettled))
  = filter (λ n, callable tasks n) (taskNames tasks).
Proof. by rewrite invoked_run, invoked_execute. Qed.

(** X4.  When [executeTasksInternal] returns, no task is fulfilled yet,
    whatever the bodies are: [results] is empty, every declared task has
    its wrapper, and the wrapper of every [async] function is still
    suspended. *)
Theorem nothing_fulfilled_on_return tasks (handleSettled : bool) :
  NoDup (taskNames tasks) →
  let s := executeTasksInternal tasks handleSettled in
  results (store s) = ∅
  ∧ (∀ n, n ∈ taskNames tasks → is_Some (status s !! n))
  ∧ (∀ n body, task_lookup tasks n = Some (Function false body) →
       ∃ c, status s !! n = Some (Suspended c)).
Proof.
  intros Hnodup s. subst s. unfold executeTasksInternal.
  split; [by rewrite launch_all_results|]. split.
  - intros n Hn. by apply launch_all_status.
  - intros n body Hn. eapply launch_all_status; [done| |done].
    by eapply task_lookup_Some.
Qed.

Lemma nothing_fulfilled_on_return_witness :
  let s := executeTasksInternal tasks_abc false in
  results (store s) = ∅
  ∧ (∀ n, n ∈ taskNames tasks_abc → is_Some (status s !! n))
  ∧ (∀ n body, task_lookup tasks_abc n = Some (Function false body) →
       ∃ c, status s !! n = Some (Suspended c)).
Proof.
  apply (nothing_fulfilled_on_return tasks_abc false). nodup_by_computation.
Defined.

(** * The returned promise, at every point of a run *)

(** When the counter is at zero every declared task has settled. *)
Lemma remaining_zero_settled tasks (hs : bool) s :
  NoDup (taskNames tasks) →
  sys_inv tasks hs (taskNames tasks) s →
  remaining s = 0 →
  ∀ n, n ∈ taskNames tasks →
    if hs then is_Some (stored_outcome (store s) n)
    else is_Some (results (store s) !! n).
Proof.
  intros Hnodup Hinv Hzero.
  pose proof Hinv as [[Hdisj _ _ _ _ _] _ _ _ _ Hrem _ _].
  set (D := dom (results (store s))
            ∪ (if hs then dom (errors (store s)) else ∅) : gset string).
  assert (D ⊆ list_to_set (taskNames tasks)) as Hsub.
  { intros n Hn. apply elem_of_list_to_set.
    eapply settled_declared; [done|]. unfold stored_outcome, D in *.
    apply elem_of_union in Hn as [[v ->]%elem_of_dom|Hn]; [eauto|].
    destruct hs; [|by apply not_elem_of_empty in Hn].
    apply elem_of_dom in Hn as [e ->].
    destruct (results (store s) !! n); eauto. }
  assert (size D = size (results (store s))
                   + (if hs then size (errors (store s)) else 0)) as Hsize.
  { unfold D. rewrite size_union.
    - rewrite !size_dom. destruct hs; [by rewrite size_dom|by rewrite size_empty].
    - destruct hs; [|set_solver].
      intros n [v Hv]%elem_of_dom [e He]%elem_of_dom.
      destruct (Hdisj n); congruence. }
  assert (D = list_to_set (taskNames tasks)) as HD.
  { apply set_subseteq_size_eq; [done|].
    rewrite size_list_to_set_NoDup by done. rewrite Hsize.
    rewrite Hrem in Hzero. destruct hs; lia. }
  intros n Hn. apply (elem_of_list_to_set (C := gset string)) in Hn.
  rewrite <-HD in Hn. unfold D, stored_outcome in *.
  apply elem_of_union in Hn as [[v Hv]%elem_of_dom|Hn].
  - rewrite Hv. destruct hs; eauto.
  - destruct hs; [|by apply not_elem_of_empty in Hn].
    apply elem_of_dom in Hn as [e He]. rewrite He.
    destruct (results (store s) !! n); eauto.
Qed.



(** X6.  Settle-all, under every schedule.  The returned promise is
    fulfilled with the mapping exactly when every task has settled and
    is pending otherwise; it is never rejected and never follows a
    thenable.  At every point the mapping has, as own property under
    every name but [__proto__], the descriptor of the stored outcome,
    and nothing for a task that has not settled; it never has an own
    [__proto__]: the descriptor of a task of that name is its
    prototype.  Resuming the wrapper of a task whose body has come to
    its end makes the descriptor of its outcome the entry of the
    mapping, unless the task is named [__proto__].  For the empty task
    set both entry points return a promise already fulfilled with the
    empty mapping. *)
Theorem allSettled_call_state tasks schedule :
  NoDup (taskNames tasks) →
  let s := run tasks true schedule (allSettled tasks) in
  let mapping := returnValue (store s) in
  (∀ m, call s = CallResolved m ↔ all_settled tasks s ∧ m = mapping)
  ∧ (call s = CallPending ↔ ¬ all_settled tasks s)
  ∧ (∀ e, call s ≠ CallRejected e)
  ∧ (∀ m, call s ≠ CallAdopts m)
  ∧ (∀ n, own mapping !! n =
            if decide (n = "__proto__") then None
            else descriptor <$> stored_outcome (store s) n)
  ∧ proto mapping = descriptor <$> stored_outcome (store s) "__proto__"
  ∧ (∀ d c o, status s !! d = Some (Suspended c) → ending c = Some o →
       d ≠ "__proto__" →
       own (returnValue (store (step tasks true d s))) !! d
         = Some (descriptor o))
  ∧ call (all []) = CallResolved empty_object
  ∧ call (allSettled []) = CallResolved empty_object.
Proof.
  intros Hnodup s mapping.
  assert (sys_inv tasks true (taskNames tasks) s) as Hinv.
  { by apply sys_inv_run, sys_inv_execute. }
  pose proof (allSettled_not_thenable tasks _ s Hinv) as Hplain.
  pose proof Hinv as [_ _ _ _ _ Hrem Hrej Hcall]. simpl in Hrej.
  assert (remaining s = 0 ↔ all_settled tasks s) as Hzero.
  { split.
    - intros Hz. apply (all_settled_stored tasks true s Hinv). intros n Hn.
      apply (remaining_zero_settled tasks true s Hnodup Hinv Hz n Hn).
    - intros Hall.
      pose proof (all_settled_count tasks true s Hnodup Hinv Hall).
      rewrite Hrem. lia. }
  rewrite Hcall. unfold expected_call, resolve_call.
  rewrite Hrej, Hplain, <-Hzero. fold mapping.
  split; [|split; [|split; [|split; [|split; [|split; [|split]]]]]].
  - intros m. case_decide; naive_solver.
  - case_decide; naive_solver.
  - intros e. by case_decide.
  - intros m. by case_decide.
  - intros n. by eapply allSettled_mapping.
  - by eapply (allSettled_mapping tasks _ s "").
  - intros d c o Hd Hend Hne.
    destruct (step_settles tasks true _ s d c o Hinv Hd Hend) as (Ho & _ & _).
    pose proof (sys_inv_step tasks true Hnodup s d Hinv) as Hinv'.
    destruct (allSettled_mapping tasks _ _ d Hinv') as [-> _].
    rewrite decide_False by done. by rewrite Ho.
  - done.
Qed.

Lemma allSettled_call_state_witness :
  let s := run tasks_boom true ["a"] (allSettled tasks_boom) in
  let mapping := returnValue (store s) in
  (∀ m, call s = CallResolved m ↔ all_settled tasks_boom s ∧ m = mapping)
  ∧ (call s = CallPending ↔ ¬ all_settled tasks_boom s)
  ∧ (∀ e, call s ≠ CallRejected e)
  ∧ (∀ m, call s ≠ CallAdopts m)
  ∧ (∀ n, own mapping !! n =
            if decide (n = "__proto__") then None
            else descriptor <$> stored_outcome (store s) n)
  ∧ proto mapping = descriptor <$> stored_outcome (store s) "__proto__"
  ∧ (∀ d c o, status s !! d = Some (Suspended c) → ending c = Some o →
       d ≠ "__proto__" →
       own (returnValue (store (step tasks_boom true d s))) !! d
         = Some (descriptor o))
  ∧ call (all []) = CallResolved empty_object
  ∧ call (allSettled []) = CallResolved empty_object.
Proof.
  apply (allSettled_call_state tasks_boom ["a"]). nodup_by_computation.
Defined.

(** * Further properties of the two searches *)

Section SearchFacts.
Variable g : gmap string (list string).

Lemma chain_reach x ext to :
  is_chain g (x :: ext) → last (x :: ext) = Some to → reach g x to.
Proof.
  revert x. induction ext as [|y ext IH]; intros x Hchain Hlast.
  - injection Hlast as ->. constructor.
  - destruct Hchain as [Hxy Hchain]. eapply reach_step; [exact Hxy|].
    apply IH; [done|]. by rewrite last_cons_cons in Hlast.
Qed.

Lemma findPath_each_simple rec to deps path V path' V' :
  (∀ dep path V r, rec dep path V = Some r →
     search_post g to dep path V r ∧ simple_post to dep path V r) →
  findPath_each rec deps path V = Some (true, path', V') →
  ∃ ext, path' = path ++ ext ∧ NoDup ext ∧ ∀ x, x ∈ ext → x = to ∨ x ∉ V.
Proof.
  intros Hrec. revert path V.
  induction deps as [|dep deps IH]; intros path V; simpl; [done|].
  destruct (rec dep (path ++ [dep]) V) as [[[b path1] V1]|] eqn:Hdep; [|done].
  apply Hrec in Hdep as [Hpost Hsimple]. destruct b.
  - intros [= <- <-].
    destruct (Hsimple _ _ eq_refl) as (ext & -> & Hnd & Hfresh).
    exists (dep :: ext). by rewrite <-app_assoc.
  - destruct Hpost as (HV & -> & _). rewrite removelast_last.
    intros (ext & -> & Hnd & Hfresh)%IH. exists ext.
    split; [done|]. split; [done|]. intros x Hx.
    destruct (Hfresh x Hx) as [?|?]; [by left|right; set_solver].
Qed.

Lemma findPath_simple fuel to cur path V r :
  findPath g fuel to cur path V = Some r → simple_post to cur path V r.
Proof.
  revert cur path V r. induction fuel as [|fuel IH]; intros cur path V r; [done|].
  simpl. destruct (decide (cur = to)) as [->|Hne].
  { intros [= <-] path' V' [= <- <-]. exists []. rewrite app_nil_r.
    split; [done|]. split; [apply NoDup_singleton|].
    intros x ->%list_elem_of_singleton. by left. }
  destruct (decide (cur ∈ V)) as [Hin|Hnin]; [by intros [= <-] ? ? [=]|].
  intros Heach path' V' ->.
  apply (findPath_each_simple _ to) in Heach
    as (ext & -> & Hnd & Hfresh).
  2:{ intros dep p W r' Hr. split; [by eapply findPath_post|by eapply IH]. }
  exists ext. split; [done|]. split.
  - apply NoDup_cons. split; [|done]. intros Hx.
    destruct (Hfresh cur Hx) as [?|?]; [done|set_solver].
  - intros x [->|Hx]%elem_of_cons; [by right|].
    destruct (Hfresh x Hx) as [?|?]; [by left|right; set_solver].
Qed.

(** What the search of [buildCyclePath] answers, in full. *)
Lemma findPath_answer from to :
  ∃ b path V,
    findPath g (findPath_fuel g) to from [from] ∅ = Some (b, path, V)
    ∧ (b = true ↔ reach g from to)
    ∧ (if b then ∃ ext, path = from :: ext ∧ is_chain g path
                        ∧ last path = Some to ∧ NoDup path
       else path = [from]).
Proof.
  destruct (findPath_total g from to) as [[[b path] V] Hr].
  exists b, path, V. split; [done|].
  pose proof (findPath_post g _ _ _ _ _ _ Hr) as [Hpost Hno].
  pose proof (findPath_simple _ _ _ _ _ _ Hr) as Hsimple.
  simpl in Hpost, Hno. destruct b.
  - destruct Hpost as (_ & ext & -> & Hchain & Hlast).
    destruct (Hsimple _ _ eq_refl) as (ext' & Heq & Hnd & _).
    simpl in Heq. injection Heq as <-.
    split; [split; [intros _; by eapply chain_reach|done]|].
    by exists ext.
  - destruct Hpost as (_ & -> & _). split; [|done].
    split; [done|]. intros Hreach%reach_clean. by destruct (Hno eq_refl).
Qed.
End SearchFacts.

(** X7.  [hasCyclePath(from, to)] always answers within the iterations
    one per edge allows, and it answers whether [to] can be reached from
    [from] along recorded edges; in particular it answers [true] when
    [from] is [to], on any graph. *)
Theorem hasCyclePath_decides_reach g from to :
  (∃ b, hasCyclePath_loop g (hasCyclePath_fuel g) to [from] ∅ = Some b)
  ∧ (hasCyclePath g from to = true ↔ reach g from to)
  ∧ hasCyclePath g to to = true.
Proof.
  split; [apply hasCyclePath_loop_total|]. split; [apply hasCyclePath_reach|].
  apply hasCyclePath_reach. constructor.
Qed.

(** X8.  The path [buildCyclePath(from, to)] joins: when [to] can be
    reached from [from] it is a chain of recorded edges that begins with
    [from] and ends with [to]; otherwise it is [from] alone; and in both
    cases no name occurs twice in it. *)
Theorem buildCyclePath_path_is_simple_chain g from to :
  (reach g from to →
     ∃ ext, buildCyclePath_path g from to = from :: ext
            ∧ is_chain g (from :: ext) ∧ last (from :: ext) = Some to)
  ∧ (¬ reach g from to → buildCyclePath_path g from to = [from])
  ∧ NoDup (buildCyclePath_path g from to).
Proof.
  unfold buildCyclePath_path.
  destruct (findPath_answer g from to) as (b & path & V & -> & Hb & Hpath).
  destruct b.
  - destruct Hpath as (ext & -> & Hchain & Hlast & Hnd).
    split; [intros _; by exists ext|]. split; [|done].
    intros Hno. destruct Hno. by apply Hb.
  - subst path. split; [|split; [done|apply NoDup_singleton]].
    intros Hreach%Hb. done.
Qed.

Lemma buildCyclePath_path_is_simple_chain_witness :
  let g := wait_graph (all tasks_cycle3) in
  (reach g "b" "a" →
     ∃ ext, buildCyclePath_path g "b" "a" = "b" :: ext
            ∧ is_chain g ("b" :: ext) ∧ last ("b" :: ext) = Some "a")
  ∧ (¬ reach g "b" "a" → buildCyclePath_path g "b" "a" = ["b"])
  ∧ NoDup (buildCyclePath_path g "b" "a").
Proof.
  apply (buildCyclePath_path_is_simple_chain
           (wait_graph (all tasks_cycle3)) "b" "a").
Defined.

(** * Accessing the same dependency again *)

Lemma set_add_idem x s : set_add x (set_add x s) = set_add x s.
Proof.
  unfold set_add at 1. rewrite decide_True; [done|].
  apply elem_of_set_add. by right.
Qed.

Lemma recorded_idem g c d : recorded (recorded g c d) c d = recorded g c d.
Proof.
  unfold recorded, deps_of. rewrite lookup_insert_eq. simpl.
  by rewrite insert_insert_eq, set_add_idem.
Qed.

Lemma waitForDep_graph tasks c d st :
  waitingFor (waitForDep tasks c d st).2 =
    if negb (in_tasks tasks d) || bool_decide (c = d)
       || hasCyclePath (waitingFor st) d c
    then waitingFor st
    else recorded (waitingFor st) c d.
Proof.
  unfold waitForDep.
  destruct (negb (in_tasks tasks d)); [done|].
  destruct (decide (c = d)) as [->|Hne].
  { by rewrite bool_decide_eq_true_2. }
  rewrite bool_decide_eq_false_2 by done.
  destruct (hasCyclePath (waitingFor st) d c); [done|]. simpl.
  destruct (results st !! d); [done|]. by destruct (errors st !! d).
Qed.

(** X9.  Reading the same dependency again records nothing new: after
    any access of [depName] by [callerTask], the same access leaves
    [waitingFor] as it is. *)
Theorem repeated_access_records_nothing tasks callerTask depName st :
  let st1 := (waitForDep tasks callerTask depName st).2 in
  waitingFor (waitForDep tasks callerTask depName st1).2 = waitingFor st1.
Proof.
  intros st1. subst st1. rewrite !waitForDep_graph.
  destruct (negb (in_tasks tasks depName)); [done|].
  destruct (bool_decide (callerTask = depName)); [done|]. simpl.
  destruct (hasCyclePath (waitingFor st) depName callerTask) eqn:Hcyc.
  - by rewrite Hcyc.
  - destruct (hasCyclePath (recorded (waitingFor st) callerTask depName)
                depName callerTask); [done|].
    apply recorded_idem.
Qed.

(** * The single-pass search [findCyclePath] *)

(** X10.  [findCyclePath(from, to)] of [src/unnamed/part_000] finds what
    the two searches of [src/lib/index.ts] find: it returns a path exactly
    when [hasCyclePath(to, from)] holds, that is when [from] can be
    reached from [to], and the path is then the one [buildCyclePath(to,
    from)] joins: a chain of recorded edges from [to] to [from] that
    names nothing twice.  For [from = to] it returns [[to]]. *)
Theorem findCyclePath_agrees g from to :
  findCyclePath g from to =
    (if hasCyclePath g to from then Some (buildCyclePath_path g to from)
     else None)
  ∧ (findCyclePath g from to = None ↔ ¬ reach g to from)
  ∧ (∀ path, findCyclePath g from to = Some path →
       ∃ ext, path = to :: ext ∧ is_chain g path
              ∧ last path = Some from ∧ NoDup path)
  ∧ findCyclePath g to to = Some [to].
Proof.
  assert (∀ from, findCyclePath g from to =
            (if hasCyclePath g to from then Some (buildCyclePath_path g to from)
             else None)
          ∧ (findCyclePath g from to = None ↔ ¬ reach g to from)
          ∧ (∀ path, findCyclePath g from to = Some path →
               ∃ ext, path = to :: ext ∧ is_chain g path
                      ∧ last path = Some from ∧ NoDup path)) as Hgen.
  { intros from'. unfold findCyclePath, buildCyclePath_path.
    destruct (findPath_answer g to from') as (b & path & V & -> & Hb & Hpath).
    destruct b.
    - assert (hasCyclePath g to from' = true) as ->.
      { by apply hasCyclePath_reach, Hb. }
      split; [done|]. split.
      + split; [done|]. intros Hno. destruct Hno. by apply Hb.
      + by intros ? [= <-].
    - assert (hasCyclePath g to from' = false) as ->.
      { destruct (hasCyclePath g to from') eqn:Hh; [|done].
        apply hasCyclePath_reach, Hb in Hh. done. }
      split; [done|]. split; [|done].
      split; [|done]. intros _ Hreach%Hb. done. }
  destruct (Hgen from) as (H1 & H2 & H3).
  split; [done|]. split; [done|]. split; [done|].
  unfold findCyclePath, findPath_fuel. simpl. by rewrite decide_True.
Qed.

Lemma findCyclePath_agrees_witness :
  let g := wait_graph (all tasks_cycle3) in
  findCyclePath g "a" "b" =
    (if hasCyclePath g "b" "a" then Some (buildCyclePath_path g "b" "a")
     else None)
  ∧ (findCyclePath g "a" "b" = None ↔ ¬ reach g "b" "a")
  ∧ (∀ path, findCyclePath g "a" "b" = Some path →
       ∃ ext, path = "b" :: ext ∧ is_chain g path
              ∧ last path = Some "a" ∧ NoDup path)
  ∧ findCyclePath g "b" "b" = Some ["b"].
Proof.
  apply (findCyclePath_agrees (wait_graph (all tasks_cycle3)) "a" "b").
Defined.

(** * [promiseAllWithSettle] *)

Lemma rejected_reasons_cons o l :
  rejected_reasons (o :: l) =
    match o with
    | Rejected e => e :: rejected_reasons l
    | Fulfilled _ => rejected_reasons l
    end.
Proof. by destruct o. Qed.

Lemma fulfilled_values_cons o l :
  fulfilled_values (o :: l) =
    match o with
    | Fulfilled v => v :: fulfilled_values l
    | Rejected _ => fulfilled_values l
    end.
Proof. by destruct o. Qed.

Lemma fulfilled_values_fmap vs : fulfilled_values (Fulfilled <$> vs) = vs.
Proof.
  induction vs as [|v vs IH]; [done|].
  change (v :: fulfilled_values (Fulfilled <$> vs) = v :: vs). by f_equal.
Qed.

Lemma rejected_reasons_fmap vs : rejected_reasons (Fulfilled <$> vs) = [].
Proof. induction vs as [|v vs IH]; [done|]. done. Qed.

Lemma rejected_reasons_nil l :
  rejected_reasons l = [] → l = Fulfilled <$> fulfilled_values l.
Proof.
  induction l as [|[v|e] l IH]; [done| |done].
  rewrite rejected_reasons_cons, fulfilled_values_cons. intros Hl.
  change (Fulfilled v :: l = Fulfilled v :: (Fulfilled <$> fulfilled_values l)).
  f_equal. by apply IH.
Qed.

(** The loop, while [onRejected] does not throw. *)
Lemma settle_loop_quiet onRejected l : ∀ rejected fulfilled called,
  (∀ e, e ∈ rejected_reasons l → onRejected e = None) →
  settle_loop onRejected l rejected fulfilled called =
    (called ++ rejected_reasons l,
     if decide (0 < length (rejected ++ rejected_reasons l))
     then AggregateError (rejected ++ rejected_reasons l) "Promise rejection"
     else Returned (fulfilled ++ fulfilled_values l)).
Proof.
  induction l as [|[v|e] l IH]; intros rejected fulfilled called Hquiet.
  - cbn [settle_loop]. change (rejected_reasons []) with (@nil value).
    change (fulfilled_values []) with (@nil value). by rewrite !app_nil_r.
  - cbn [settle_loop]. rewrite IH by done. rewrite fulfilled_values_cons.
    rewrite rejected_reasons_cons. by rewrite <-app_assoc.
  - rewrite rejected_reasons_cons in Hquiet. cbn [settle_loop].
    rewrite Hquiet by left. rewrite IH.
    2:{ intros e' He'. apply Hquiet. by right. }
    rewrite rejected_reasons_cons, fulfilled_values_cons.
    by rewrite <-!app_assoc.
Qed.

(** The loop never returns once it has seen a rejection. *)
Lemma settle_loop_returned onRejected l : ∀ rejected fulfilled called calls vs,
  settle_loop onRejected l rejected fulfilled called = (calls, Returned vs) →
  rejected = [] ∧ rejected_reasons l = []
  ∧ vs = fulfilled ++ fulfilled_values l ∧ calls = called.
Proof.
  induction l as [|[v|e] l IH]; intros rejected fulfilled called calls vs;
    cbn [settle_loop].
  - case_decide as Hlen; [done|]. intros [= <- <-].
    destruct rejected; [|simpl in Hlen; lia].
    change (fulfilled_values []) with (@nil value). by rewrite app_nil_r.
  - intros (-> & ? & -> & ->)%IH.
    rewrite fulfilled_values_cons, rejected_reasons_cons.
    by rewrite <-app_assoc.
  - destruct (onRejected e); [done|].
    intros (Hnil & _)%IH. by destruct rejected.
Qed.

(** X11.  With an [onRejected] that does not throw (the default one
    never does), [promiseAllWithSettle] calls it once for every rejected
    input, in input order; it returns the fulfilled values, in input
    order, when no input was rejected, and otherwise throws an
    [AggregateError] holding every reason, in input order. *)
Theorem promiseAllWithSettle_quiet onRejected settledPromises :
  (∀ e, e ∈ rejected_reasons settledPromises → onRejected e = None) →
  promiseAllWithSettle onRejected settledPromises =
    (rejected_reasons settledPromises,
     match rejected_reasons settledPromises with
     | [] => Returned (fulfilled_values settledPromises)
     | reasons => AggregateError reasons "Promise rejection"
     end).
Proof.
  intros Hquiet. unfold promiseAllWithSettle.
  rewrite settle_loop_quiet by done. simpl.
  destruct (rejected_reasons settledPromises); [done|].
  rewrite decide_True; [done|]. simpl. lia.
Qed.

Lemma promiseAllWithSettle_quiet_witness :
  promiseAllWithSettle defaultOnRejected
    [Fulfilled (VNum 1); Rejected (VStr "x"); Fulfilled (VNum 2);
     Rejected (VStr "y")] =
    ([VStr "x"; VStr "y"],
     AggregateError [VStr "x"; VStr "y"] "Promise rejection").
Proof.
  apply (promiseAllWithSettle_quiet defaultOnRejected
           [Fulfilled (VNum 1); Rejected (VStr "x"); Fulfilled (VNum 2);
            Rejected (VStr "y")]).
  reflexivity.
Defined.

(** X12.  Whatever [onRejected] does, [promiseAllWithSettle] returns an
    array exactly when every input was fulfilled; the array then holds
    the values of the inputs, one per input and in input order, and
    [onRejected] was not called. *)
Theorem promiseAllWithSettle_returns_iff onRejected settledPromises calls vs :
  promiseAllWithSettle onRejected settledPromises = (calls, Returned vs)
  ↔ settledPromises = Fulfilled <$> vs ∧ calls = [].
Proof.
  unfold promiseAllWithSettle. split.
  - intros (_ & Hnil & -> & ->)%settle_loop_returned. split; [|done].
    by apply rejected_reasons_nil.
  - intros [-> ->]. rewrite settle_loop_quiet.
    + rewrite rejected_reasons_fmap, fulfilled_values_fmap. done.
    + rewrite rejected_reasons_fmap. by intros e ?%elem_of_nil.
Qed.

(** X13.  When [onRejected] throws, [promiseAllWithSettle] stops there:
    it ends with what [onRejected] threw at the first rejected input it
    throws for, having called it for the rejected inputs up to that one
    and for none after. *)
Theorem promiseAllWithSettle_callback_throws onRejected before reason after e :
  (∀ r, r ∈ rejected_reasons before → onRejected r = None) →
  onRejected reason = Some e →
  promiseAllWithSettle onRejected (before ++ Rejected reason :: after) =
    (rejected_reasons before ++ [reason], CallbackThrew e).
Proof.
  intros Hquiet Hthrow. unfold promiseAllWithSettle.
  assert (∀ rejected fulfilled called,
    settle_loop onRejected (before ++ Rejected reason :: after)
      rejected fulfilled called =
    (called ++ rejected_reasons before ++ [reason], CallbackThrew e)) as Hgen.
  { induction before as [|[v|r] before IH]; intros rejected fulfilled called.
    - cbn [app settle_loop]. by rewrite Hthrow.
    - cbn [app settle_loop]. rewrite rejected_reasons_cons.
      apply IH. intros r Hr. by apply Hquiet.
    - rewrite rejected_reasons_cons in Hquiet. cbn [app settle_loop].
      rewrite Hquiet by left. rewrite IH.
      + rewrite rejected_reasons_cons. by rewrite <-app_assoc.
      + intros r' Hr'. apply Hquiet. by right. }
  apply Hgen.
Qed.

Lemma promiseAllWithSettle_callback_throws_witness :
  promiseAllWithSettle
    (λ r, match r with VStr "y" => Some (VStr "stop") | _ => None end)
    ([Rejected (VStr "x"); Fulfilled (VNum 1)]
       ++ Rejected (VStr "y") :: [Rejected (VStr "z")]) =
    (rejected_reasons [Rejected (VStr "x"); Fulfilled (VNum 1)] ++ [VStr "y"],
     CallbackThrew (VStr "stop")).
Proof.
  apply (promiseAllWithSettle_callback_throws
           (λ r, match r with VStr "y" => Some (VStr "stop") | _ => None end)
           [Rejected (VStr "x"); Fulfilled (VNum 1)] (VStr "y")
           [Rejected (VStr "z")] (VStr "stop")).
  - intros r Hr. apply list_elem_of_singleton in Hr as ->. reflexivity.
  - reflexivity.
Defined.

(** X14.  When every body awaits each dependency where it reads it and
    reads no name inherited from [Object.prototype], and the awaits of
    its own operations complete when resumed, no run gets stuck:
    whatever has been resumed so far, resuming suspended wrappers further
    in a suitable order settles every task.  The returned promise is
    then fulfilled with the mapping, or rejected, or, fail-fast with a
    task named [then] whose result is a function, left to follow the
    mapping as a thenable. *)
Theorem tame_tasks_can_settle tasks (handleSettled : bool) schedule :
  NoDup (taskNames tasks) → tame_tasks tasks →
  ∃ later,
    let s := run tasks handleSettled (schedule ++ later)
               (executeTasksInternal tasks handleSettled) in
    all_settled tasks s
    ∧ (call s = CallResolved (returnValue (store s))
       ∨ (∃ e, call s = CallRejected e)
       ∨ (handleSettled = false
          ∧ call s = CallAdopts (returnValue (store s))
          ∧ ∃ a, results (store s) !! "then" = Some (VFunction a))).
Proof.
  intros Hnodup Htame.
  destruct (tame_complete tasks handleSettled schedule Hnodup Htame)
    as [later Hall].
  exists later. cbn zeta. split; [done|].
  apply (settled_call tasks handleSettled Hnodup); [|done].
  by apply sys_inv_run, sys_inv_execute.
Qed.

Lemma tame_tasks_can_settle_witness :
  ∃ later,
    let s := run tasks_abc false (["b"] ++ later)
               (executeTasksInternal tasks_abc false) in
    all_settled tasks_abc s
    ∧ (call s = CallResolved (returnValue (store s))
       ∨ (∃ e, call s = CallRejected e)
       ∨ (false = false
          ∧ call s = CallAdopts (returnValue (store s))
          ∧ ∃ a, results (store s) !! "then" = Some (VFunction a))).
Proof.
  apply (tame_tasks_can_settle tasks_abc false ["b"]).
  - nodup_by_computation.
  - intros name sync body Hlook. cbn [tasks_abc task_lookup] in Hlook.
    repeat case_decide; simplify_eq.
    + apply tame_Return.
    + apply tame_Pause, tame_Return.
    + apply tame_await.
      * intros _. by left.
      * intros [[]|e]; simpl; constructor.
Defined.

(** * The two entry points, side by side *)


